(** * dev_events: Event and Booking models, cached database connection

    A shallow embedding of [database/event.model.ts], of the Booking model
    and of [lib/mongodb.ts], with the properties of their specification.

    JavaScript strings are sequences of UTF-16 code units; the built-ins the
    code calls ([trim], [toLowerCase], regular expressions, [Date]) are
    modelled after ECMA-262.  What ECMA-262 leaves to the host (Unicode case
    tables beyond ASCII, the local time zone, the date formats accepted
    besides the ISO one) is a field of the record [Host]. *)

From Stdlib Require Import String Ascii List ZArith NArith Lia Bool.
Import ListNotations.

Set Implicit Arguments.

(** ** Strings *)

Module JS.

Local Open Scope N_scope.

Definition char := N.
Definition jstring := list char.

(** A string literal of the source, as code units. *)
Definition lit (s : string) : jstring :=
  map N_of_ascii (list_ascii_of_string s).

Definition ch (a : ascii) : char := N_of_ascii a.

Definition HYPHEN : char := Eval cbv in ch "-".
Definition PLUS : char := Eval cbv in ch "+".
Definition COLON : char := Eval cbv in ch ":".
Definition DOT : char := Eval cbv in ch ".".
Definition AT : char := Eval cbv in ch "@".
Definition LETTER_T : char := Eval cbv in ch "T".
Definition LETTER_Z : char := Eval cbv in ch "Z".

Definition between (lo hi c : char) : bool := (lo <=? c) && (c <=? hi).

Definition isDigit (c : char) : bool := between 48 57 c.
Definition isLowerAZ (c : char) : bool := between 97 122 c.
Definition isUpperAZ (c : char) : bool := between 65 90 c.

(** WhiteSpace and LineTerminator of ECMA-262: what [trim] strips and what
    [\s] matches. *)
Definition isWhiteSpace (c : char) : bool :=
  between 9 13 c || (c =? 32) || (c =? 160) || (c =? 5760)
  || between 8192 8202 c || (c =? 8232) || (c =? 8233)
  || (c =? 8239) || (c =? 8287) || (c =? 12288) || (c =? 65279).

Fixpoint dropWhile (p : char -> bool) (s : jstring) : jstring :=
  match s with
  | [] => []
  | a :: rest => if p a then dropWhile p rest else s
  end.

Fixpoint takeWhile (p : char -> bool) (s : jstring) : jstring :=
  match s with
  | [] => []
  | a :: rest => if p a then a :: takeWhile p rest else []
  end.

Definition dropWhileEnd (p : char -> bool) (s : jstring) : jstring :=
  rev (dropWhile p (rev s)).

(** [String.prototype.trim] *)
Definition trim (s : jstring) : jstring :=
  dropWhileEnd isWhiteSpace (dropWhile isWhiteSpace s).

(** What the host supplies. [lowerTable before c after] is the lower-case
    mapping of a code unit [c] from U+0080 on, standing between [before] and
    [after] (the mapping of a sigma and of a surrogate depends on the
    neighbours); no mapping of the Unicode tables yields a capital A-Z.
    [utcOfLocal] converts a local time value to UTC and [legacyDateParse]
    reads the date strings that are not in the ISO format. *)
Record Host := {
  lowerTable : jstring -> char -> jstring -> jstring;
  lowerTable_not_upper :
    forall before c after,
      forallb (fun x => negb (isUpperAZ x)) (lowerTable before c after) = true;
  utcOfLocal : Z -> Z;
  legacyDateParse : jstring -> option Z
}.

Definition lowerAscii (c : char) : char :=
  if isUpperAZ c then c + 32 else c.

Fixpoint lowerFrom (h : Host) (before s : jstring) : jstring :=
  match s with
  | [] => []
  | c :: rest =>
      (if c <? 128 then [lowerAscii c] else lowerTable h before c rest)
        ++ lowerFrom h (before ++ [c]) rest
  end.

(** [String.prototype.toLowerCase] *)
Definition toLowerCase (h : Host) (s : jstring) : jstring := lowerFrom h [] s.

(** What a [throw new Error(message)] raises, and how a call completes. *)
Inductive completion (A E : Type) : Type :=
| Return (a : A)
| Throw (e : E).
Arguments Return {A E} a.
Arguments Throw {A E} e.

End JS.

Import JS.

(** ** Regular expressions: the backtracking matcher of ECMA-262 *)

Module RegExp.

Inductive ClassAtom : Type :=
| CChar (c : char)
| CRange (lo hi : char)
| CSpace                      (* \s *)
| CDigit.                     (* \d *)

Inductive regex : Type :=
| Chr (c : char)
| Class (atoms : list ClassAtom)          (* [...]  *)
| NClass (atoms : list ClassAtom)         (* [^...] *)
| Seq (r1 r2 : regex)
| Alt (r1 r2 : regex)
| Plus (r : regex)                        (* r+ , greedy *)
| Opt (r : regex)                         (* r? , greedy *)
| Group (n : nat) (r : regex)             (* n-th capturing group *)
| Bol                                     (* ^ *)
| Eol.                                    (* $ *)

Definition inAtom (a : ClassAtom) (c : char) : bool :=
  match a with
  | CChar x => (c =? x)%N
  | CRange lo hi => between lo hi c
  | CSpace => isWhiteSpace c
  | CDigit => isDigit c
  end.

Definition inClass (atoms : list ClassAtom) (c : char) : bool :=
  existsb (fun a => inAtom a c) atoms.

(** The state of a match: the input split at the end index, and the
    captures. *)
Record mstate := MState {
  before : jstring;
  after : jstring;
  caps : list (nat * jstring)
}.

Definition Cont := mstate -> option mstate.

Definition step (p : char -> bool) (x : mstate) (c : Cont) : option mstate :=
  match after x with
  | a :: rest =>
      if p a then c (MState (before x ++ [a]) rest (caps x)) else None
  | [] => None
  end.

Definition orElse (a b : option mstate) : option mstate :=
  match a with
  | Some z => Some z
  | None => b
  end.

Definition progressed (x y : mstate) : bool :=
  (length (after y) <? length (after x))%nat.

Definition capture (n : nat) (x y : mstate) : mstate :=
  MState (before y)
         (after y)
         ((n, skipn (length (before x)) (before y)) :: caps y).

(** RepeatMatcher with no minimum and no maximum, for the matcher [mr] of
    the repeated term: one more iteration if it consumes something, else the
    continuation.  An iteration that consumes nothing is rejected, so the
    loop runs at most once per remaining code unit, which [fuel] counts. *)
Section Repeat.

Variable mr : mstate -> Cont -> option mstate.
Variable c : Cont.

Fixpoint star (fuel : nat) (y : mstate) {struct fuel} : option mstate :=
  match fuel with
  | O => None
  | S fuel' =>
      orElse
        (mr y (fun y' => if progressed y y' then star fuel' y' else None))
        (c y)
  end.

End Repeat.

(** [m r x c]: match [r] at [x], then continue with [c]; when the
    continuation fails, the alternatives of [r] are tried in the order of
    ECMA-262.  The patterns of the code have no flag but g and no group
    under a quantifier, so that code units are compared as they are and the
    captures need no reset at an iteration. *)
Fixpoint m (r : regex) (x : mstate) (c : Cont) {struct r} : option mstate :=
  match r with
  | Chr ch => step (N.eqb ch) x c
  | Class atoms => step (inClass atoms) x c
  | NClass atoms => step (fun a => negb (inClass atoms a)) x c
  | Seq r1 r2 => m r1 x (fun y => m r2 y c)
  | Alt r1 r2 => orElse (m r1 x c) (m r2 x c)
  | Plus r' => m r' x (fun y => star (m r') c (S (length (after y))) y)
  | Opt r' =>
      orElse (m r' x (fun y => if progressed x y then c y else None)) (c x)
  | Group n r' => m r' x (fun y => c (capture n x y))
  | Bol => match before x with [] => c x | _ :: _ => None end
  | Eol => match after x with [] => c x | _ :: _ => None end
  end.

(** RegExpBuiltinExec from [lastIndex]: the first index at which the
    pattern matches.  Returns the text before the match and the final
    state. *)
Fixpoint search (r : regex) (bef aft : jstring) {struct aft}
  : option (jstring * mstate) :=
  match m r (MState bef aft []) (fun y => Some y) with
  | Some y => Some (bef, y)
  | None =>
      match aft with
      | [] => None
      | a :: aft' => search r (bef ++ [a]) aft'
      end
  end.

(** [RegExp.prototype.test] *)
Definition test (r : regex) (s : jstring) : bool :=
  match search r [] s with
  | Some _ => true
  | None => false
  end.

(** The result of [String.prototype.match] without the g flag: the matched
    text and the captures, or null. *)
Definition group (y : mstate) (n : nat) : option jstring :=
  match find (fun e => Nat.eqb (fst e) n) (caps y) with
  | Some e => Some (snd e)
  | None => None
  end.

Definition jmatch (r : regex) (s : jstring) : option (nat -> option jstring) :=
  match search r [] s with
  | Some (_, y) => Some (group y)
  | None => None
  end.

(** [String.prototype.replace] with a regular expression that has the g
    flag and a replacement without [$]: every match, from left to right,
    is replaced; after an empty match the index moves on by one. *)
Fixpoint replaceFrom (fuel : nat) (r : regex) (repl bef aft : jstring)
  : jstring :=
  match fuel with
  | O => aft
  | S fuel' =>
      match search r bef aft with
      | None => aft
      | Some (start, y) =>
          skipn (length bef) start ++ repl ++
          (if (length (before y) =? length start)%nat
           then match after y with
                | [] => []
                | a :: rest =>
                    a :: replaceFrom fuel' r repl (before y ++ [a]) rest
                end
           else replaceFrom fuel' r repl (before y) (after y))
      end
  end.

Definition replaceAll (r : regex) (repl s : jstring) : jstring :=
  replaceFrom (S (length s)) r repl [] s.

End RegExp.

Import RegExp.

(** ** Dates: time values, the calendar and the ISO format of ECMA-262 *)

Module DateTime.

Local Open Scope Z_scope.

Definition msPerDay : Z := 86400000.
Definition msPerHour : Z := 3600000.
Definition msPerMinute : Z := 60000.
Definition msPerSecond : Z := 1000.

Definition Day (t : Z) : Z := t / msPerDay.
Definition TimeWithinDay (t : Z) : Z := t mod msPerDay.

Definition DaysInYear (y : Z) : Z :=
  if negb (y mod 4 =? 0) then 365
  else if negb (y mod 100 =? 0) then 366
  else if negb (y mod 400 =? 0) then 365
  else 366.

Definition DayFromYear (y : Z) : Z :=
  365 * (y - 1970) + (y - 1969) / 4 - (y - 1901) / 100 + (y - 1601) / 400.

Definition TimeFromYear (y : Z) : Z := msPerDay * DayFromYear y.

(** The year whose first day is the last one not after day [d]: an estimate
    from the mean length of a year, corrected by at most one. *)
Definition YearFromDay (d : Z) : Z :=
  let y := 1970 + (400 * d) / 146097 in
  if d <? DayFromYear y then y - 1
  else if DayFromYear (y + 1) <=? d then y + 1
  else y.

Definition YearFromTime (t : Z) : Z := YearFromDay (Day t).

Definition InLeapYear (t : Z) : Z :=
  if DaysInYear (YearFromTime t) =? 366 then 1 else 0.

Definition DayWithinYear (t : Z) : Z := Day t - DayFromYear (YearFromTime t).

Definition MonthFromTime (t : Z) : Z :=
  let d := DayWithinYear t in
  let leap := InLeapYear t in
  if d <? 31 then 0
  else if d <? 59 + leap then 1
  else if d <? 90 + leap then 2
  else if d <? 120 + leap then 3
  else if d <? 151 + leap then 4
  else if d <? 181 + leap then 5
  else if d <? 212 + leap then 6
  else if d <? 243 + leap then 7
  else if d <? 273 + leap then 8
  else if d <? 304 + leap then 9
  else if d <? 334 + leap then 10
  else 11.

Definition DateFromTime (t : Z) : Z :=
  let d := DayWithinYear t in
  let leap := InLeapYear t in
  match MonthFromTime t with
  | 0 => d + 1
  | 1 => d - 30
  | 2 => d - 58 - leap
  | 3 => d - 89 - leap
  | 4 => d - 119 - leap
  | 5 => d - 150 - leap
  | 6 => d - 180 - leap
  | 7 => d - 211 - leap
  | 8 => d - 242 - leap
  | 9 => d - 272 - leap
  | 10 => d - 303 - leap
  | _ => d - 333 - leap
  end.

Definition HourFromTime (t : Z) : Z := (t / msPerHour) mod 24.
Definition MinFromTime (t : Z) : Z := (t / msPerMinute) mod 60.
Definition SecFromTime (t : Z) : Z := (t / msPerSecond) mod 60.
Definition msFromTime (t : Z) : Z := t mod msPerSecond.

Definition MakeTime (hour min sec ms : Z) : Z :=
  hour * msPerHour + min * msPerMinute + sec * msPerSecond + ms.

(** Days from the start of year [y] to the start of its month [mn]
    (0 = January). *)
Definition monthStart (y mn : Z) : Z :=
  let leap := if DaysInYear y =? 366 then 1 else 0 in
  match mn with
  | 0 => 0
  | 1 => 31
  | 2 => 59 + leap
  | 3 => 90 + leap
  | 4 => 120 + leap
  | 5 => 151 + leap
  | 6 => 181 + leap
  | 7 => 212 + leap
  | 8 => 243 + leap
  | 9 => 273 + leap
  | 10 => 304 + leap
  | _ => 334 + leap
  end.

(** MakeDay: the day number of the first of the month, plus [date - 1]. *)
Definition MakeDay (year month date : Z) : Z :=
  let ym := year + month / 12 in
  let mn := month mod 12 in
  DayFromYear ym + monthStart ym mn + date - 1.

Definition MakeDate (day time : Z) : Z := day * msPerDay + time.

(** A time value is [Some t], NaN is [None]. *)
Definition TimeClip (t : Z) : option Z :=
  if 8640000000000000 <? Z.abs t then None else Some t.

(** *** Decimal fields *)

Definition digitChar (d : Z) : char := Z.to_N (48 + d).

Fixpoint pad (n : nat) (v : Z) : jstring :=
  match n with
  | O => []
  | S n' => pad n' (v / 10) ++ [digitChar (v mod 10)]
  end.

Definition digitVal (c : char) : option Z :=
  if isDigit c then Some (Z.of_N c - 48) else None.

(** Exactly [n] digits. *)
Fixpoint fixedNumber (n : nat) (acc : Z) (s : jstring)
  : option (Z * jstring) :=
  match n with
  | O => Some (acc, s)
  | S n' =>
      match s with
      | c :: rest =>
          match digitVal c with
          | Some d => fixedNumber n' (10 * acc + d) rest
          | None => None
          end
      | [] => None
      end
  end.

(** *** The Date Time String Format

    [YYYY], [YYYY-MM] or [YYYY-MM-DD] (the year also as a sign and six
    digits), then possibly [THH:mm], [THH:mm:ss] or [THH:mm:ss.sss] and an
    offset [Z] or [+HH:mm], [-HH:mm].  Months are 01-12, days 01-31 (a day
    beyond the end of its month rolls over into the next, as in V8, the
    engine of Node.js), hours 00-24, minutes and seconds 00-59.  A date
    without a time is UTC; a date and time without an offset is local
    time. *)

Definition expect (c : char) (s : jstring) : option jstring :=
  match s with
  | a :: rest => if (a =? c)%N then Some rest else None
  | [] => None
  end.

Definition parseYear (s : jstring) : option (Z * jstring) :=
  match s with
  | c :: rest =>
      if (c =? PLUS)%N then fixedNumber 6 0 rest
      else if (c =? HYPHEN)%N then
        match fixedNumber 6 0 rest with
        | Some (y, r) => if y =? 0 then None else Some (- y, r)
        | None => None
        end
      else fixedNumber 4 0 s
  | [] => None
  end.

Definition parseField (lo hi : Z) (s : jstring) : option (Z * jstring) :=
  match fixedNumber 2 0 s with
  | Some (v, r) => if (lo <=? v) && (v <=? hi) then Some (v, r) else None
  | None => None
  end.

Definition parseMonthDay (s : jstring) : option (Z * Z * jstring) :=
  match expect HYPHEN s with
  | None => Some (1, 1, s)
  | Some r1 =>
      match parseField 1 12 r1 with
      | None => None
      | Some (mo, r2) =>
          match expect HYPHEN r2 with
          | None => Some (mo, 1, r2)
          | Some r3 =>
              match parseField 1 31 r3 with
              | None => None
              | Some (d, r4) => Some (mo, d, r4)
              end
          end
      end
  end.

Definition parseFraction (s : jstring) : option (Z * jstring) :=
  match expect DOT s with
  | None => Some (0, s)
  | Some r => fixedNumber 3 0 r
  end.

Definition parseSeconds (s : jstring) : option (Z * Z * jstring) :=
  match expect COLON s with
  | None => Some (0, 0, s)
  | Some r1 =>
      match parseField 0 59 r1 with
      | None => None
      | Some (sec, r2) =>
          match parseFraction r2 with
          | None => None
          | Some (ms, r3) => Some (sec, ms, r3)
          end
      end
  end.

(** The time of day in milliseconds; 24:00:00.000 is the only time in hour
    24. *)
Definition parseTimeOfDay (s : jstring) : option (Z * jstring) :=
  match parseField 0 24 s with
  | None => None
  | Some (hour, r1) =>
      match expect COLON r1 with
      | None => None
      | Some r2 =>
          match parseField 0 59 r2 with
          | None => None
          | Some (min, r3) =>
              match parseSeconds r3 with
              | None => None
              | Some (sec, ms, r4) =>
                  if (hour =? 24) && negb ((min =? 0) && (sec =? 0) && (ms =? 0))
                  then None
                  else Some (MakeTime hour min sec ms, r4)
              end
          end
      end
  end.

(** The offset in milliseconds east of UTC, [None] when there is none; the
    offset ends the string. *)
Definition parseOffset (s : jstring) : option (option Z) :=
  match s with
  | [] => Some None
  | c :: r =>
      if (c =? LETTER_Z)%N then
        match r with [] => Some (Some 0) | _ :: _ => None end
      else if (c =? PLUS)%N || (c =? HYPHEN)%N then
        match parseField 0 23 r with
        | None => None
        | Some (oh, r1) =>
            match expect COLON r1 with
            | None => None
            | Some r2 =>
                match parseField 0 59 r2 with
                | Some (om, []) =>
                    let off := (oh * 60 + om) * msPerMinute in
                    Some (Some (if (c =? PLUS)%N then off else - off))
                | _ => None
                end
            end
        end
      else None
  end.

Definition parseISO (h : Host) (s : jstring) : option Z :=
  match parseYear s with
  | None => None
  | Some (y, r1) =>
      match parseMonthDay r1 with
      | None => None
      | Some (mo, d, r2) =>
          let day := MakeDay y (mo - 1) d in
          match r2 with
          | [] => Some (MakeDate day 0)
          | c :: r3 =>
              if (c =? LETTER_T)%N then
                match parseTimeOfDay r3 with
                | None => None
                | Some (time, r4) =>
                    match parseOffset r4 with
                    | None => None
                    | Some None => Some (utcOfLocal h (MakeDate day time))
                    | Some (Some off) => Some (MakeDate day time - off)
                    end
                end
              else None
          end
      end
  end.

(** [Date.parse]: the ISO format first, then whatever else the host reads. *)
Definition DateParse (h : Host) (s : jstring) : option Z :=
  match parseISO h s with
  | Some t => Some t
  | None => legacyDateParse h s
  end.

(** [new Date(s)], as its time value: [None] is an Invalid Date. *)
Definition newDate (h : Host) (s : jstring) : option Z :=
  match DateParse h s with
  | Some t => TimeClip t
  | None => None
  end.

Definition yearString (y : Z) : jstring :=
  if (0 <=? y) && (y <=? 9999) then pad 4 y
  else (if y <? 0 then [HYPHEN] else [PLUS]) ++ pad 6 (Z.abs y).

Definition dateString (t : Z) : jstring :=
  yearString (YearFromTime t) ++ [HYPHEN] ++ pad 2 (MonthFromTime t + 1)
    ++ [HYPHEN] ++ pad 2 (DateFromTime t).

(** [Date.prototype.toISOString] of a valid date. *)
Definition toISOString (t : Z) : jstring :=
  dateString t
    ++ [LETTER_T] ++ pad 2 (HourFromTime t) ++ [COLON] ++ pad 2 (MinFromTime t)
    ++ [COLON] ++ pad 2 (SecFromTime t) ++ [DOT] ++ pad 3 (msFromTime t)
    ++ [LETTER_Z].

End DateTime.

(** ** database/event.model.ts *)

Module EventModel.

Inductive jserror : Type := Error (message : string).

(** [/[^a-z0-9]+/g] *)
Definition RE_NON_ALNUM : regex := Eval cbv in
  Plus (NClass [CRange (ch "a") (ch "z"); CRange (ch "0") (ch "9")]).

(** [/^-+|-+$/g] *)
Definition RE_EDGE_HYPHENS : regex := Eval cbv in
  Alt (Seq Bol (Plus (Chr (ch "-")))) (Seq (Plus (Chr (ch "-"))) Eol).

Definition generateSlug (h : Host) (title : jstring) : jstring :=
  replaceAll RE_EDGE_HYPHENS (lit "")
    (replaceAll RE_NON_ALNUM (lit "-")
       (trim (toLowerCase h title))).

(** [s.split(sep)[0]] for a separator of one code unit: the text before
    its first occurrence. *)
Definition splitHead (sep : char) (s : jstring) : jstring :=
  takeWhile (fun c => negb (c =? sep)%N) s.

Definition normalizeDate (h : Host) (date : jstring)
  : completion jstring jserror :=
  let parsed := DateTime.newDate h date in
  match parsed with
  | None => Throw (Error "Invalid event date. Please provide a valid date.")
  | Some t => Return (splitHead LETTER_T (DateTime.toISOString t))
  end.

(** [/^([01]\d|2[0-3]):([0-5]\d)(?::[0-5]\d)?$/] *)
Definition RE_TIME : regex := Eval cbv in
  Seq Bol
   (Seq (Group 1 (Alt (Seq (Class [CRange (ch "0") (ch "1")]) (Class [CDigit]))
                      (Seq (Chr (ch "2")) (Class [CRange (ch "0") (ch "3")]))))
   (Seq (Chr (ch ":"))
   (Seq (Group 2 (Seq (Class [CRange (ch "0") (ch "5")]) (Class [CDigit])))
   (Seq (Opt (Seq (Chr (ch ":"))
             (Seq (Class [CRange (ch "0") (ch "5")]) (Class [CDigit]))))
        Eol)))).

(** A capture inside a template literal: an unmatched group reads
    "undefined". *)
Definition tpl (o : option jstring) : jstring :=
  match o with
  | Some s => s
  | None => lit "undefined"
  end.

Definition normalizeTime (time : jstring) : completion jstring jserror :=
  let trimmed := trim time in
  match jmatch RE_TIME trimmed with
  | None =>
      Throw (Error "Invalid event time. Expected 24h format HH:MM or HH:MM:SS.")
  | Some groups =>
      let hours := groups 1%nat in
      let minutes := groups 2%nat in
      Return (tpl hours ++ lit ":" ++ tpl minutes)
  end.

Definition dquote : string := String (ascii_of_nat 34) EmptyString.

(** A field of a document as the hook finds it. *)
Inductive value : Type :=
| VUndefined
| VString (s : jstring).

Record EventDocument := {
  title : value;
  slug : jstring;
  description : value;
  overview : value;
  image : value;
  venue : value;
  location : value;
  date : jstring;
  time : jstring;
  mode : value;
  audience : value;
  agenda : list jstring;
  organizer : value;
  tags : list jstring
}.

Definition requiredStringFields : list (string * (EventDocument -> value)) :=
  [ ("title"%string, title); ("description"%string, description);
    ("overview"%string, overview); ("image"%string, image);
    ("venue"%string, venue); ("location"%string, location);
    ("mode"%string, mode); ("audience"%string, audience);
    ("organizer"%string, organizer) ].

(** [typeof value !== "string" || value.trim().length === 0] *)
Definition isMissing (v : value) : bool :=
  match v with
  | VUndefined => true
  | VString s => (length (trim s) =? 0)%nat
  end.

(** What the validator of [agenda] and of [tags] is given. *)
Inductive arrayValue : Type :=
| NotArray
| Array (items : list value).

(** [Array.isArray(value) && value.length > 0 && value.every((item) =>
    typeof item === "string" && item.trim().length > 0)] *)
Definition listValidator (v : arrayValue) : bool :=
  match v with
  | NotArray => false
  | Array items =>
      (0 <? length items)%nat
      && forallb (fun item =>
                    match item with
                    | VString s => (0 <? length (trim s))%nat
                    | VUndefined => false
                    end) items
  end.

Fixpoint checkRequired (event : EventDocument)
  (fields : list (string * (EventDocument -> value))) : option jserror :=
  match fields with
  | [] => None
  | (name, get) :: rest =>
      if isMissing (get event)
      then Some (Error ("Field " ++ dquote ++ name ++ dquote
                          ++ " is required and cannot be empty."))
      else checkRequired event rest
  end.

Definition titleText (event : EventDocument) : jstring :=
  match title event with
  | VString s => s
  | VUndefined => lit "undefined"
  end.

(** The pre-save hook; [titleModified] is [event.isModified("title")].  It
    hands the event on, or the error, to [next]. *)
Definition pre_save (h : Host) (titleModified : bool) (event : EventDocument)
  : completion EventDocument jserror :=
  match checkRequired event requiredStringFields with
  | Some e => Throw e
  | None =>
      match normalizeDate h (date event) with
      | Throw e => Throw e
      | Return d =>
          match normalizeTime (time event) with
          | Throw e => Throw e
          | Return t =>
              Return {|
                title := title event;
                slug := if titleModified
                        then generateSlug h (titleText event)
                        else slug event;
                description := description event;
                overview := overview event;
                image := image event;
                venue := venue event;
                location := location event;
                date := d;
                time := t;
                mode := mode event;
                audience := audience event;
                agenda := agenda event;
                organizer := organizer event;
                tags := tags event
              |}
          end
      end
  end.

End EventModel.

(** ** The Booking model *)

Module BookingModel.

Import EventModel.

(** [/^[^\s@]+@[^\s@]+\.[^\s@]+$/] *)
Definition EMAIL_REGEX : regex := Eval cbv in
  Seq Bol
   (Seq (Plus (NClass [CSpace; CChar (ch "@")]))
   (Seq (Chr (ch "@"))
   (Seq (Plus (NClass [CSpace; CChar (ch "@")]))
   (Seq (Chr (ch "."))
   (Seq (Plus (NClass [CSpace; CChar (ch "@")]))
        Eol))))).

(** The validator of the [email] path. *)
Definition validator (value : jstring) : bool := test EMAIL_REGEX value.

Record BookingDocument (ObjectId : Type) := {
  eventId : ObjectId;
  email : jstring
}.

(** What the hook hands to [next]: an error it has thrown itself, or what
    the lookup of the event has failed with. *)
Inductive hookError (Reason : Type) : Type :=
| Raised (e : jserror)
| LookupFailed (reason : Reason).
Arguments Raised {Reason} e.
Arguments LookupFailed {Reason} reason.

(** The pre-save hook. [eventExists] is [await Event.exists({ _id }).lean()]:
    it answers whether the event is there, or fails with a reason of the
    store, which the [catch] of the hook hands on as it is.  [isNew] and
    [eventIdModified] are the flags of the document. *)
Definition pre_save (ObjectId Reason : Type)
  (eventExists : ObjectId -> completion bool Reason)
  (isNew eventIdModified : bool) (booking : BookingDocument ObjectId)
  : completion unit (hookError Reason) :=
  if negb (test EMAIL_REGEX (email booking)) then
    Throw (Raised (Error "Invalid email format."))
  else if isNew || eventIdModified then
    match eventExists (eventId booking) with
    | Throw reason => Throw (LookupFailed reason)
    | Return found =>
        if negb found then
          Throw (Raised
                   (Error "Cannot create booking: referenced event does not exist."))
        else Return tt
    end
  else Return tt.

End BookingModel.

(** ** lib/mongodb.ts

    [connectToDatabase] is an async function: a call runs up to its
    [await], is suspended until the promise it awaits is settled, and is
    resumed later.  Calls may be entered while others are suspended; the
    promises returned by [mongoose.connect] are settled by the driver. *)

Module Mongodb.

Section Connection.

Variable Mongoose : Type.      (* the handle [mongoose.connect] resolves to *)
Variable Reason : Type.        (* what it rejects with *)

Inductive thrown : Type :=
| Error (message : string)
| ConnectError (reason : Reason).

Inductive promiseState : Type :=
| Pending
| Fulfilled (handle : Mongoose)
| Rejected (reason : Reason).

(** Promises are named by their position among the promises created. *)
Record MongooseGlobal := {
  conn : option Mongoose;
  promise : option nat
}.

Inductive call : Type :=
| NotCalled
| Awaiting (p : nat)
| Returned (handle : Mongoose)
| Threw (e : thrown).

Record world := {
  MONGODB_URI : option jstring;       (* process.env.MONGODB_URI *)
  cached : MongooseGlobal;
  promises : list promiseState;       (* one per call of mongoose.connect *)
  calls : list call
}.

Fixpoint update (A : Type) (l : list A) (i : nat) (a : A) : list A :=
  match l, i with
  | [], _ => []
  | _ :: rest, O => a :: rest
  | b :: rest, S j => b :: update rest j a
  end.

(** [!uri]: undefined or the empty string. *)
Definition falsy (uri : option jstring) : bool :=
  match uri with
  | None => true
  | Some [] => true
  | Some (_ :: _) => false
  end.

(** The call up to its first [await] (or to its end). *)
Definition enter (w : world) : call * MongooseGlobal * list promiseState :=
  if falsy (MONGODB_URI w) then
    (Threw (Error "Please define the MONGODB_URI environment variable in your environment."),
     cached w, promises w)
  else
    match conn (cached w) with
    | Some handle => (Returned handle, cached w, promises w)
    | None =>
        match promise (cached w) with
        | None =>
            let p := length (promises w) in
            (Awaiting p,
             {| conn := None; promise := Some p |},
             promises w ++ [Pending])
        | Some p => (Awaiting p, cached w, promises w)
        end
    end.

(** The call from its [await] on, once the promise is settled. *)
Definition resume (w : world) (p : nat) : option (call * MongooseGlobal) :=
  match nth_error (promises w) p with
  | Some (Fulfilled handle) =>
      (* cached.conn = await cached.promise; return cached.conn *)
      Some (Returned handle,
            {| conn := Some handle; promise := promise (cached w) |})
  | Some (Rejected reason) =>
      Some (Threw (ConnectError reason),
            {| conn := conn (cached w); promise := None |})
  | _ => None
  end.

Inductive event : Type :=
| Enter (i : nat)                         (* caller i calls *)
| Settle (p : nat) (s : promiseState)     (* the driver settles promise p *)
| Resume (i : nat).                       (* caller i continues *)

(** One step; [None] when the event cannot happen in [w]. *)
Definition exec (w : world) (e : event) : option world :=
  match e with
  | Enter i =>
      match nth_error (calls w) i with
      | Some NotCalled =>
          let '(c, g, ps) := enter w in
          Some {| MONGODB_URI := MONGODB_URI w; cached := g; promises := ps;
                  calls := update (calls w) i c |}
      | _ => None
      end
  | Settle p s =>
      match nth_error (promises w) p, s with
      | Some Pending, Fulfilled _ | Some Pending, Rejected _ =>
          Some {| MONGODB_URI := MONGODB_URI w; cached := cached w;
                  promises := update (promises w) p s; calls := calls w |}
      | _, _ => None
      end
  | Resume i =>
      match nth_error (calls w) i with
      | Some (Awaiting p) =>
          match resume w p with
          | Some (c, g) =>
              Some {| MONGODB_URI := MONGODB_URI w; cached := g;
                      promises := promises w; calls := update (calls w) i c |}
          | None => None
          end
      | _ => None
      end
  end.

Fixpoint run (w : world) (es : list event) : option world :=
  match es with
  | [] => Some w
  | e :: rest =>
      match exec w e with
      | Some w' => run w' rest
      | None => None
      end
  end.

(** A process that has not connected yet, with [n] callers to come. *)
Definition fresh (uri : option jstring) (n : nat) : world :=
  {| MONGODB_URI := uri;
     cached := {| conn := None; promise := None |};
     promises := [];
     calls := repeat NotCalled n |}.

End Connection.

Arguments Error {Reason} message.
Arguments ConnectError {Reason} reason.
Arguments Pending {Mongoose Reason}.
Arguments Fulfilled {Mongoose Reason} handle.
Arguments Rejected {Mongoose Reason} reason.
Arguments NotCalled {Mongoose Reason}.
Arguments Awaiting {Mongoose Reason} p.
Arguments Returned {Mongoose Reason} handle.
Arguments Threw {Mongoose Reason} e.
Arguments Enter {Mongoose Reason} i.
Arguments Settle {Mongoose Reason} p s.
Arguments Resume {Mongoose Reason} i.
Arguments fresh {Mongoose Reason} uri n.

End Mongodb.


(** ** The vocabulary of the specification

    The properties below are stated with these definitions: the patterns
    and forms as the specification words them, and what the proofs follow
    the matcher with. *)

Module MatcherSpec.

(** The loop of [r+] for a term that matches one code unit in [p], after its
    first iteration: as many code units as possible, then fewer. *)
Fixpoint greedy (p : char -> bool) (c : Cont) (bef aft : jstring)
  (cs : list (nat * jstring)) : option mstate :=
  match aft with
  | a :: aft' =>
      if p a
      then orElse (greedy p c (bef ++ [a]) aft' cs) (c (MState bef aft cs))
      else c (MState bef aft cs)
  | [] => c (MState bef aft cs)
  end.

Definition atEnd : Cont :=
  fun y => match after y with [] => Some y | _ :: _ => None end.

Definition succeeds (o : option mstate) : Prop := exists z, o = Some z.

End MatcherSpec.

Module HostSpec.

(** A host in the UTC zone that knows no date format but the ISO one and
    leaves the code units from U+0080 on as they are.  On ASCII input in
    the ISO format with an offset, or without a time, every host agrees
    with it. *)
Definition plainHost : Host :=
  {| lowerTable := fun _ c _ => if isUpperAZ c then [] else [c];
     lowerTable_not_upper :=
       ltac:(intros before c after; cbv beta;
             destruct (isUpperAZ c) eqn:E;
             [reflexivity | cbn [forallb]; rewrite E; reflexivity]);
     utcOfLocal := fun t => t;
     legacyDateParse := fun _ => None |}.

End HostSpec.

Module SlugSpec.

Import EventModel.

Definition isHyphen (c : char) : bool := (HYPHEN =? c)%N.

Definition isAlnum (c : char) : bool := isDigit c || isLowerAZ c || isUpperAZ c.

(** Every maximal run of code units in [p] is replaced by [by_]. *)
Fixpoint replaceRuns (p : char -> bool) (by_ : jstring) (s : jstring) : jstring :=
  match s with
  | [] => []
  | a :: rest =>
      if p a then
        match rest with
        | b :: _ => if p b then replaceRuns p by_ rest
                    else by_ ++ replaceRuns p by_ rest
        | [] => by_
        end
      else a :: replaceRuns p by_ rest
  end.

Definition stripHyphens (s : jstring) : jstring :=
  dropWhileEnd isHyphen (dropWhile isHyphen s).

(** The slug as the specification words it. *)
Definition slugOfWords (h : Host) (title : jstring) : jstring :=
  stripHyphens
    (replaceRuns (fun c => negb (isAlnum c)) (lit "-")
       (trim (toLowerCase h title))).

(** What [[^a-z0-9]] matches. *)
Definition notSlugChar (c : char) : bool :=
  negb (inClass [CRange 97%N 122%N; CRange 48%N 57%N] c).

Definition slugChar (c : char) : bool := isLowerAZ c || isDigit c || isHyphen c.

Fixpoint noDoubleHyphen (s : jstring) : bool :=
  match s with
  | [] => true
  | a :: rest =>
      match rest with
      | b :: _ => negb (isHyphen a && isHyphen b) && noDoubleHyphen rest
      | [] => true
      end
  end.

Definition startsWithHyphen (s : jstring) : bool :=
  match s with
  | a :: _ => isHyphen a
  | [] => false
  end.

Definition endsWithHyphen (s : jstring) : bool := startsWithHyphen (rev s).

(** An event whose title is punctuation only. *)
Definition punctuationEvent : EventDocument := {|
  title := VString (lit "!!!");
  slug := lit "previous";
  description := VString (lit "d");
  overview := VString (lit "o");
  image := VString (lit "i");
  venue := VString (lit "v");
  location := VString (lit "l");
  date := lit "2025-11-16";
  time := lit "09:05";
  mode := VString (lit "m");
  audience := VString (lit "a");
  agenda := [lit "Opening"];
  organizer := VString (lit "org");
  tags := [lit "t"]
|}.

End SlugSpec.

Module TimeSpec.

Import DateTime EventModel.
Local Open Scope N_scope.

Definition INVALID_TIME : jserror :=
  Error "Invalid event time. Expected 24h format HH:MM or HH:MM:SS.".

(** [t] has the form HH:MM or HH:MM:SS, with HH in 00-23 and MM, SS in
    00-59, and [r] is its HH:MM part. *)
Definition TimeForm (t r : jstring) : Prop :=
  exists hh mm : Z,
    (0 <= hh <= 23)%Z /\ (0 <= mm <= 59)%Z
    /\ r = pad 2 hh ++ [COLON] ++ pad 2 mm
    /\ (t = r \/ exists ss : Z, (0 <= ss <= 59)%Z /\ t = r ++ [COLON] ++ pad 2 ss).

Definition hourOK (h1 h2 : char) : bool :=
  (between 48 49 h1 && isDigit h2) || ((50 =? h1)%N && between 48 51 h2).

Definition minuteOK (m1 m2 : char) : bool := between 48 53 m1 && isDigit m2.

Definition isColon (c : char) : bool := (COLON =? c)%N.

(** The same form, read code unit by code unit. *)
Definition timeShape (s : jstring) : option jstring :=
  match s with
  | [h1; h2; c1; m1; m2] =>
      if hourOK h1 h2 && isColon c1 && minuteOK m1 m2
      then Some [h1; h2; COLON; m1; m2] else None
  | [h1; h2; c1; m1; m2; c2; s1; s2] =>
      if hourOK h1 h2 && isColon c1 && minuteOK m1 m2
         && isColon c2 && minuteOK s1 s2
      then Some [h1; h2; COLON; m1; m2] else None
  | _ => None
  end.

Definition pairOK (ok : char -> char -> bool) (v : Z) : bool :=
  match pad 2 v with
  | [a; b] => ok a b
  | _ => false
  end.

End TimeSpec.

Module EmailSpec.

Local Open Scope N_scope.

Definition nonSpace (c : char) : bool := negb (isWhiteSpace c).

Definition nonSpaceNonAt (c : char) : bool :=
  negb (isWhiteSpace c) && negb (c =? AT).

(** The pattern as the code has it: the three parts are free of white space
    and of [@]. *)
Definition EmailPattern (v : jstring) : Prop :=
  exists a b c,
    v = a ++ [AT] ++ b ++ [DOT] ++ c
    /\ a <> [] /\ b <> [] /\ c <> []
    /\ forallb nonSpaceNonAt a = true
    /\ forallb nonSpaceNonAt b = true
    /\ forallb nonSpaceNonAt c = true.

(** The pattern as the specification words it: the last part is only free
    of white space. *)
Definition ClaimedEmailPattern (v : jstring) : Prop :=
  exists a b c,
    v = a ++ [AT] ++ b ++ [DOT] ++ c
    /\ a <> [] /\ b <> [] /\ c <> []
    /\ forallb nonSpaceNonAt a = true
    /\ forallb nonSpaceNonAt b = true
    /\ forallb nonSpace c = true.

End EmailSpec.

Module DateSpec.

Import DateTime EventModel.
Local Open Scope Z_scope.

Definition INVALID_DATE : jserror :=
  Error "Invalid event date. Please provide a valid date.".

Definition DaysInMonth (y mo : Z) : Z :=
  match mo with
  | 1 | 3 | 5 | 7 | 8 | 10 | 12 => 31
  | 4 | 6 | 9 | 11 => 30
  | 2 => if DaysInYear y =? 366 then 29 else 28
  | _ => 0
  end.

(** YYYY-MM-DD *)
Definition isoDate (y mo dd : Z) : jstring :=
  pad 4 y ++ [HYPHEN] ++ pad 2 mo ++ [HYPHEN] ++ pad 2 dd.

Definition signChar (east : bool) : char := if east then PLUS else HYPHEN.

(** YYYY-MM-DDTHH:mm:ss+HH:mm (east) or YYYY-MM-DDTHH:mm:ss-HH:mm *)
Definition isoDateTimeOffset (y mo dd hh mi ss : Z) (east : bool) (oh om : Z)
  : jstring :=
  isoDate y mo dd ++ [LETTER_T] ++ pad 2 hh ++ [COLON] ++ pad 2 mi ++ [COLON]
    ++ pad 2 ss ++ [signChar east] ++ pad 2 oh ++ [COLON]
    ++ pad 2 om.

(** The offset of [+oh:om] or [-oh:om], in milliseconds east of UTC. *)
Definition offsetMs (east : bool) (oh om : Z) : Z :=
  if east then (oh * 60 + om) * msPerMinute else - ((oh * 60 + om) * msPerMinute).

Definition notT (c : char) : bool := negb (c =? LETTER_T)%N.

End DateSpec.

Module ConnectionSpec.

Import Mongodb.

Definition CONFIG_MESSAGE : string :=
  "Please define the MONGODB_URI environment variable in your environment.".

Definition isEnter (Mongoose Reason : Type) (e : event Mongoose Reason) : bool :=
  match e with Enter _ => true | _ => false end.

(** Every caller has called before any caller continues: the callers are
    concurrent. *)
Fixpoint entersFirst (Mongoose Reason : Type) (es : list (event Mongoose Reason))
  : bool :=
  match es with
  | [] => true
  | Resume _ :: rest => forallb (fun e => negb (isEnter e)) rest
  | _ :: rest => entersFirst rest
  end.

(** What holds of a process while its callers share one attempt. *)
Definition oneFlight (Mongoose Reason : Type) (w : world Mongoose Reason) : Prop :=
  (length (promises w) <= 1)%nat
  /\ (forall i c, nth_error (calls w) i = Some c ->
        match c with
        | NotCalled => True
        | Awaiting p => p = O /\ length (promises w) = 1%nat
        | Returned h => nth_error (promises w) 0 = Some (Fulfilled h)
        | Threw e =>
            exists r, e = ConnectError r
                      /\ nth_error (promises w) 0 = Some (Rejected r)
        end).

(** What holds while callers are still arriving and none has continued. *)
Definition entering (Mongoose Reason : Type) (w : world Mongoose Reason) : Prop :=
  falsy (MONGODB_URI w) = false
  /\ conn (cached w) = None
  /\ ((promise (cached w) = None /\ promises w = []
       /\ forall i c, nth_error (calls w) i = Some c -> c = NotCalled)
      \/ (promise (cached w) = Some O /\ length (promises w) = 1%nat
          /\ forall i c, nth_error (calls w) i = Some c ->
               c = NotCalled \/ c = Awaiting O)).

Definition sampleUri : option jstring := Some (lit "mongodb://localhost:27017/dev").

(** A process that holds a handle while MONGODB_URI is not set. *)
Definition unconfiguredWorld : world nat unit :=
  {| MONGODB_URI := None;
     cached := {| conn := Some 7%nat; promise := Some O |};
     promises := [Fulfilled 7%nat];
     calls := [Returned 7%nat; NotCalled] |}.


Definition twoCallers : list (event nat unit) :=
  [Enter 0; Enter 1; Settle 0 (Fulfilled 7%nat); Resume 1; Resume 0].

Definition connectedWorld : world nat unit :=
  {| MONGODB_URI := sampleUri;
     cached := {| conn := Some 7%nat; promise := Some O |};
     promises := [Fulfilled 7%nat];
     calls := [Returned 7%nat; Returned 7%nat] |}.

(** Four callers, of whom the second calls when the first attempt has
    failed and the first caller has not continued yet: the first continues
    and clears the cache, the third calls and starts a second attempt, the
    second continues and clears the cache again, the fourth calls. *)
Definition raceCalls : list (event nat unit) :=
  [Enter 0; Settle 0 (Rejected tt); Enter 1; Resume 0; Enter 2; Resume 1;
   Enter 3].

(** Where that leaves the process: no handle cached, the third and the
    fourth caller suspended, each on a pending attempt of its own. *)
Definition inFlightWorld : world nat unit :=
  {| MONGODB_URI := sampleUri;
     cached := {| conn := None; promise := Some 2%nat |};
     promises := [Rejected tt; Pending; Pending];
     calls := [Threw (ConnectError tt); Threw (ConnectError tt);
               Awaiting 1; Awaiting 2] |}.

(** Both attempts succeed, with a handle each, and both callers continue. *)
Definition raceSettlements : list (event nat unit) :=
  [Settle 1 (Fulfilled 7%nat); Settle 2 (Fulfilled 8%nat); Resume 2; Resume 3].

Definition raceWorld : world nat unit :=
  {| MONGODB_URI := sampleUri;
     cached := {| conn := Some 8%nat; promise := Some 2%nat |};
     promises := [Rejected tt; Fulfilled 7%nat; Fulfilled 8%nat];
     calls := [Threw (ConnectError tt); Threw (ConnectError tt);
               Returned 7%nat; Returned 8%nat] |}.

(** Unfolds the two invariants and the fields of a world. *)
Ltac fields :=
  unfold entering, oneFlight;
  cbn [MONGODB_URI cached promises calls conn promise].

End ConnectionSpec.


(** ** Well-formed slugs *)

Module SlugForm.

Import EventModel SlugSpec.

(** An ASCII lower-case letter or digit: what [[^a-z0-9]] does not match. *)
Definition isSlugClass (c : char) : bool := negb (notSlugChar c).

(** The ASCII lower-case letters and digits of a string, in their order. *)
Definition lettersAndDigits (s : jstring) : jstring := filter isSlugClass s.

(** A well-formed slug: lower-case ASCII letters, digits and single hyphens
    between them. *)
Definition isSlug (s : jstring) : bool :=
  forallb slugChar s && negb (startsWithHyphen s) && negb (endsWithHyphen s)
  && noDoubleHyphen s.

(** Every code unit is below U+0080. *)
Definition isAscii (s : jstring) : bool := forallb (fun c => (c <? 128)%N) s.

End SlugForm.

(** ** The documents the pre-save hooks see *)

Module HookSpec.

Import EventModel.

(** Not a string, or a string of white space only. *)
Definition blank (v : value) : Prop :=
  match v with
  | VUndefined => True
  | VString s => forallb isWhiteSpace s = true
  end.

Definition fieldError (name : string) : jserror :=
  Error ("Field " ++ dquote ++ name ++ dquote
           ++ " is required and cannot be empty.").

(** Every required text field holds text. *)
Definition present (event : EventDocument) : Prop :=
  Forall (fun f : string * (EventDocument -> value) => ~ blank (snd f event))
         requiredStringFields.



(** An event as it is first saved, and as the hook hands it on. *)
Definition draftEvent : EventDocument := {|
  title := VString (lit "  Rocq Meetup, 2025!  ");
  slug := [];
  description := VString (lit "d");
  overview := VString (lit "o");
  image := VString (lit "i");
  venue := VString (lit "v");
  location := VString (lit "l");
  date := lit "2025-02-30";
  time := lit " 09:05:30 ";
  mode := VString (lit "m");
  audience := VString (lit "a");
  agenda := [lit "Opening"];
  organizer := VString (lit "org");
  tags := [lit "t"]
|}.

Definition savedEvent : EventDocument := {|
  title := VString (lit "  Rocq Meetup, 2025!  ");
  slug := lit "rocq-meetup-2025";
  description := VString (lit "d");
  overview := VString (lit "o");
  image := VString (lit "i");
  venue := VString (lit "v");
  location := VString (lit "l");
  date := lit "2025-03-02";
  time := lit "09:05";
  mode := VString (lit "m");
  audience := VString (lit "a");
  agenda := [lit "Opening"];
  organizer := VString (lit "org");
  tags := [lit "t"]
|}.

Definition INVALID_EMAIL : jserror := Error "Invalid email format.".

Definition MISSING_EVENT : jserror :=
  Error "Cannot create booking: referenced event does not exist.".

(** How many [@] a string holds. *)
Definition countAt (v : jstring) : nat := count_occ N.eq_dec v AT.

End HookSpec.

(** ** Connection attempts over any interleaving *)

Module FlightSpec.

Import Mongodb ConnectionSpec.

Definition isThrew (Mongoose Reason : Type) (c : call Mongoose Reason) : bool :=
  match c with Threw _ => true | _ => false end.

Definition threwCount (Mongoose Reason : Type) (l : list (call Mongoose Reason))
  : nat := length (filter (@isThrew Mongoose Reason) l).

(** The callers that have failed. *)
Definition failures (Mongoose Reason : Type) (w : world Mongoose Reason) : nat :=
  threwCount (calls w).

(** The calls of [mongoose.connect] so far. *)
Definition attempts (Mongoose Reason : Type) (w : world Mongoose Reason) : nat :=
  length (promises w).

(** What holds of a configured process at every moment. *)
Definition sound (Mongoose Reason : Type) (w : world Mongoose Reason) : Prop :=
  falsy (MONGODB_URI w) = false
  /\ (forall i h, nth_error (calls w) i = Some (Returned h) ->
        exists p, nth_error (promises w) p = Some (Fulfilled h))
  /\ (forall i e, nth_error (calls w) i = Some (Threw e) ->
        exists p r, e = ConnectError r
                    /\ nth_error (promises w) p = Some (Rejected r))
  /\ (forall h, conn (cached w) = Some h ->
        exists p, nth_error (promises w) p = Some (Fulfilled h))
  /\ (attempts w <= failures w + 1)%nat
  /\ (promise (cached w) = None -> (attempts w <= failures w)%nat).

(** What holds of a process without MONGODB_URI at every moment. *)
Definition unconfigured (Mongoose Reason : Type) (w : world Mongoose Reason)
  : Prop :=
  falsy (MONGODB_URI w) = true
  /\ promises w = []
  /\ cached w = {| conn := None; promise := None |}
  /\ (forall i c, nth_error (calls w) i = Some c ->
        c = NotCalled \/ c = Threw (Error CONFIG_MESSAGE)).

(** The call has come to its end. *)
Definition finished (Mongoose Reason : Type) (c : call Mongoose Reason) : bool :=
  match c with Returned _ | Threw _ => true | _ => false end.

(** The first caller has failed with the first attempt, the second still
    waits for that attempt, the third has started a second attempt. *)
Definition staleWorld : world nat unit :=
  {| MONGODB_URI := sampleUri;
     cached := {| conn := None; promise := Some 1%nat |};
     promises := [Rejected tt; Pending];
     calls := [Threw (ConnectError tt); Awaiting 0; Awaiting 1; NotCalled] |}.

Definition staleEvents : list (event nat unit) :=
  [Enter 0; Enter 1; Settle 0 (Rejected tt); Resume 0; Enter 2].

(** Two callers of a process without MONGODB_URI, after both have called. *)
Definition refusedWorld : world nat unit :=
  {| MONGODB_URI := None;
     cached := {| conn := None; promise := None |};
     promises := [];
     calls := [Threw (Error CONFIG_MESSAGE); Threw (Error CONFIG_MESSAGE)] |}.

(** A connected process with a caller to come and a caller that waits, and
    the same once both are through. *)
Definition servingWorld : world nat unit :=
  {| MONGODB_URI := sampleUri;
     cached := {| conn := Some 7%nat; promise := Some O |};
     promises := [Fulfilled 7%nat];
     calls := [Returned 7%nat; NotCalled; Awaiting 0] |}.

Definition servedWorld : world nat unit :=
  {| MONGODB_URI := sampleUri;
     cached := {| conn := Some 7%nat; promise := Some O |};
     promises := [Fulfilled 7%nat];
     calls := [Returned 7%nat; Returned 7%nat; Returned 7%nat] |}.

End FlightSpec.

(** ** The matcher on the patterns of the code *)

Module RegExpFacts.

Import MatcherSpec.

Lemma star_step p c fuel bef aft cs :
  (length aft < fuel)%nat ->
  star (step p) c fuel (MState bef aft cs) = greedy p c bef aft cs.
Proof.
  revert bef aft.
  induction fuel as [|fuel IH]; intros bef aft Hlen; [lia|].
  destruct aft as [|a aft']; simpl.
  - reflexivity.
  - unfold step; simpl. destruct (p a); [|reflexivity].
    unfold progressed; simpl.
    replace (length aft' <? S (length aft'))%nat with true
      by (symmetry; apply Nat.ltb_lt; lia).
    rewrite IH by (simpl in Hlen; lia). reflexivity.
Qed.

Lemma plus_step p c bef aft cs :
  step p (MState bef aft cs)
       (fun y => star (step p) c (S (length (after y))) y)
  = match aft with
    | a :: rest => if p a then greedy p c (bef ++ [a]) rest cs else None
    | [] => None
    end.
Proof.
  unfold step at 1. cbn [after before caps].
  destruct aft as [|a rest]; [reflexivity|].
  destruct (p a); [|reflexivity].
  apply star_step. lia.
Qed.

Lemma greedy_all p bef aft cs :
  greedy p (fun y => Some y) bef aft cs
  = Some (MState (bef ++ takeWhile p aft) (dropWhile p aft) cs).
Proof.
  revert bef. induction aft as [|a aft IH]; intros bef; simpl.
  - now rewrite app_nil_r.
  - destruct (p a).
    + rewrite IH. simpl. now rewrite <- app_assoc.
    + now rewrite app_nil_r.
Qed.

Lemma greedy_atEnd p bef aft cs :
  greedy p atEnd bef aft cs
  = if forallb p aft then Some (MState (bef ++ aft) [] cs) else None.
Proof.
  revert bef. induction aft as [|a aft IH]; intros bef; simpl.
  - now rewrite app_nil_r.
  - destruct (p a); simpl.
    + rewrite IH. destruct (forallb p aft); simpl.
      * now rewrite <- app_assoc.
      * reflexivity.
    + reflexivity.
Qed.

Lemma greedy_accepts p c bef aft cs :
  (exists z, greedy p c bef aft cs = Some z) <->
  (exists pre post, aft = pre ++ post /\ forallb p pre = true /\
                    exists z, c (MState (bef ++ pre) post cs) = Some z).
Proof.
  revert bef. induction aft as [|a aft IH]; intros bef; simpl.
  - split.
    + intros [z Hz]. exists [], []. simpl. rewrite app_nil_r. eauto.
    + intros (pre & post & E & _ & z & Hz).
      symmetry in E. apply app_eq_nil in E. destruct E; subst.
      rewrite app_nil_r in Hz. eauto.
  - assert (Hnil : forall z, c (MState bef (a :: aft) cs) = Some z ->
             exists pre post, a :: aft = pre ++ post /\ forallb p pre = true /\
               exists z, c (MState (bef ++ pre) post cs) = Some z).
    { intros z Hz. exists [], (a :: aft). simpl. rewrite app_nil_r. eauto. }
    destruct (p a) eqn:Pa.
    + split.
      * intros [z Hz]. unfold orElse in Hz.
        destruct (greedy p c (bef ++ [a]) aft cs) eqn:G; [|eauto].
        destruct (proj1 (IH (bef ++ [a])) (ex_intro _ _ G))
          as (pre & post & E & Hp & z' & Hz').
        exists (a :: pre), post. subst aft. simpl. rewrite Pa, Hp.
        rewrite <- app_assoc in Hz'. simpl in Hz'. eauto.
      * intros (pre & post & E & Hp & z & Hz).
        destruct pre as [|b pre]; simpl in E.
        -- subst post. rewrite app_nil_r in Hz. unfold orElse.
           destruct (greedy p c (bef ++ [a]) aft cs); eauto.
        -- inversion E; subst b aft. simpl in Hp. rewrite Pa in Hp. simpl in Hp.
           assert (exists z, greedy p c (bef ++ [a]) (pre ++ post) cs = Some z)
             as [z' Hz'].
           { apply IH. exists pre, post. rewrite <- app_assoc. simpl. eauto. }
           rewrite Hz'. simpl. eauto.
    + split.
      * intros [z Hz]. eauto.
      * intros (pre & post & E & Hp & z & Hz).
        destruct pre as [|b pre]; simpl in E.
        -- subst post. rewrite app_nil_r in Hz. eauto.
        -- inversion E; subst b. simpl in Hp. rewrite Pa in Hp. discriminate.
Qed.

Lemma step_succeeds p x c :
  succeeds (step p x c) <->
  exists a rest, after x = a :: rest /\ p a = true
                 /\ succeeds (c (MState (before x ++ [a]) rest (caps x))).
Proof.
  unfold step. destruct (after x) as [|a rest].
  - split; [intros [z H]; discriminate | intros (a & r & E & _); discriminate].
  - destruct (p a) eqn:Pa.
    + split; [intros H; exists a, rest; auto|].
      intros (a' & r' & E & _ & H). now inversion E; subst.
    + split; [intros [z H]; discriminate|].
      intros (a' & r' & E & Pa' & _). inversion E; subst. congruence.
Qed.

Lemma plus_succeeds p x c :
  succeeds (step p x (fun y => star (step p) c (S (length (after y))) y)) <->
  exists pre post,
    after x = pre ++ post /\ pre <> [] /\ forallb p pre = true
    /\ succeeds (c (MState (before x ++ pre) post (caps x))).
Proof.
  destruct x as [bef aft cs]. rewrite plus_step. cbn [after before caps].
  destruct aft as [|a rest].
  - split; [intros [z H]; discriminate|].
    intros (pre & post & E & N & _). destruct pre; [congruence | discriminate].
  - destruct (p a) eqn:Pa.
    + unfold succeeds. rewrite greedy_accepts. split.
      * intros (pre & post & E & F & H). exists (a :: pre), post.
        subst rest. simpl. rewrite Pa, F. rewrite <- app_assoc in H.
        repeat split; auto. discriminate.
      * intros (pre & post & E & N & F & H).
        destruct pre as [|a' pre]; [congruence|].
        inversion E; subst a' rest. simpl in F. rewrite Pa in F.
        exists pre, post. rewrite <- app_assoc. auto.
    + split; [intros [z H]; discriminate|].
      intros (pre & post & E & N & F & _).
      destruct pre as [|a' pre]; [congruence|].
      inversion E; subst. simpl in F. rewrite Pa in F. discriminate.
Qed.

Lemma search_start r aft : forall bef start y,
  search r bef aft = Some (start, y) ->
  exists w, start = bef ++ w.
Proof.
  induction aft as [|a aft IH]; intros bef start y; simpl.
  - destruct (m r _ _); [|discriminate].
    intros E; inversion E; subst. exists []. now rewrite app_nil_r.
  - destruct (m r _ _).
    + intros E; inversion E; subst. exists []. now rewrite app_nil_r.
    + intros E. apply IH in E. destruct E as [w ->].
      exists (a :: w). now rewrite <- app_assoc.
Qed.

Lemma skipn_length_app (bef w : jstring) : skipn (length bef) (bef ++ w) = w.
Proof. induction bef; simpl; auto. Qed.

Lemma replaceFrom_hit f r repl bef aft y :
  m r (MState bef aft []) (fun y => Some y) = Some y ->
  replaceFrom (S f) r repl bef aft
  = repl ++
    (if (length (before y) =? length bef)%nat
     then match after y with
          | [] => []
          | a :: rest => a :: replaceFrom f r repl (before y ++ [a]) rest
          end
     else replaceFrom f r repl (before y) (after y)).
Proof.
  intros H. cbn [replaceFrom].
  assert (S : search r bef aft = Some (bef, y)).
  { destruct aft; simpl; now rewrite H. }
  rewrite S, skipn_all. reflexivity.
Qed.

Lemma replaceFrom_miss f r repl bef a rest :
  m r (MState bef (a :: rest) []) (fun y => Some y) = None ->
  replaceFrom (S f) r repl bef (a :: rest)
  = a :: replaceFrom (S f) r repl (bef ++ [a]) rest.
Proof.
  intros H. cbn [replaceFrom].
  assert (S : search r bef (a :: rest) = search r (bef ++ [a]) rest).
  { simpl. now rewrite H. }
  rewrite S. destruct (search r (bef ++ [a]) rest) as [[start y]|] eqn:E;
    [|reflexivity].
  destruct (search_start _ _ _ E) as [w ->].
  rewrite (skipn_length_app (bef ++ [a]) w).
  replace ((bef ++ [a]) ++ w) with (bef ++ a :: w)
    by (now rewrite <- app_assoc).
  rewrite (skipn_length_app bef (a :: w)). reflexivity.
Qed.

Lemma replaceFrom_nil f r repl bef :
  m r (MState bef [] []) (fun y => Some y) = None ->
  replaceFrom f r repl bef [] = [].
Proof.
  intros H. destruct f; simpl; [reflexivity|]. now rewrite H.
Qed.

Lemma search_bol_none r aft : forall bef,
  bef <> [] -> search (Seq Bol r) bef aft = None.
Proof.
  induction aft as [|a aft IH]; intros bef Hb; simpl;
    (destruct bef; [congruence|]); [reflexivity|].
  apply IH. discriminate.
Qed.

Lemma search_anchored r s :
  search (Seq Bol r) [] s
  = match m (Seq Bol r) (MState [] s []) (fun y => Some y) with
    | Some y => Some ([], y)
    | None => None
    end.
Proof.
  destruct s as [|a s]; simpl; [reflexivity|].
  destruct (m r _ _); [reflexivity|]. apply search_bol_none. discriminate.
Qed.

Lemma dropWhile_length p (s : jstring) : (length (dropWhile p s) <= length s)%nat.
Proof. induction s; simpl; [lia|]. destruct (p a); simpl; lia. Qed.

Lemma forallb_pointwise (f g : char -> bool) (l : jstring) :
  (forall x, f x = g x) -> forallb f l = forallb g l.
Proof. intros E. induction l as [|a l IH]; simpl; [auto | now rewrite E, IH]. Qed.

End RegExpFacts.


(** ** generateSlug *)

Module SlugFacts.

Import EventModel MatcherSpec SlugSpec RegExpFacts.

Lemma replaceRuns_cons2 p by_ a b rest :
  replaceRuns p by_ (a :: b :: rest)
  = if p a
    then if p b then replaceRuns p by_ (b :: rest)
         else by_ ++ replaceRuns p by_ (b :: rest)
    else a :: replaceRuns p by_ (b :: rest).
Proof. reflexivity. Qed.

Lemma replaceRuns_hit p by_ a rest :
  p a = true ->
  replaceRuns p by_ (a :: rest) = by_ ++ replaceRuns p by_ (dropWhile p rest).
Proof.
  revert a. induction rest as [|b rest IH]; intros a Pa.
  - simpl. rewrite Pa. now rewrite app_nil_r.
  - rewrite replaceRuns_cons2, Pa. cbn [dropWhile].
    destruct (p b) eqn:Pb.
    + now apply IH.
    + reflexivity.
Qed.

Lemma replaceRuns_miss p by_ a rest :
  p a = false ->
  replaceRuns p by_ (a :: rest) = a :: replaceRuns p by_ rest.
Proof. intros Pa. simpl. now rewrite Pa. Qed.

Lemma m_non_alnum bef aft :
  m RE_NON_ALNUM (MState bef aft []) (fun y => Some y)
  = match aft with
    | a :: rest =>
        if notSlugChar a
        then Some (MState ((bef ++ [a]) ++ takeWhile notSlugChar rest)
                          (dropWhile notSlugChar rest) [])
        else None
    | [] => None
    end.
Proof.
  unfold RE_NON_ALNUM. cbn [m].
  change (m (NClass [CRange 97%N 122%N; CRange 48%N 57%N])) with (step notSlugChar).
  change (fun a => negb (inClass [CRange 97%N 122%N; CRange 48%N 57%N] a))
    with notSlugChar.
  rewrite plus_step. destruct aft as [|a rest]; [reflexivity|].
  destruct (notSlugChar a); [|reflexivity].
  apply greedy_all.
Qed.

Lemma replaceFrom_non_alnum n : forall aft bef fuel,
  (length aft <= n)%nat -> (length aft < fuel)%nat ->
  replaceFrom fuel RE_NON_ALNUM (lit "-") bef aft
  = replaceRuns notSlugChar (lit "-") aft.
Proof.
  induction n as [|n IH]; intros aft bef fuel Hn Hf.
  - destruct aft; [|simpl in Hn; lia].
    apply replaceFrom_nil. now rewrite m_non_alnum.
  - destruct aft as [|a rest].
    + apply replaceFrom_nil. now rewrite m_non_alnum.
    + destruct fuel as [|f]; [lia|]. simpl in Hn, Hf.
      destruct (notSlugChar a) eqn:Pa.
      * rewrite (@replaceFrom_hit f _ _ _ _
                   (MState ((bef ++ [a]) ++ takeWhile notSlugChar rest)
                           (dropWhile notSlugChar rest) []))
          by (rewrite m_non_alnum, Pa; reflexivity).
        cbn [before after].
        replace (length ((bef ++ [a]) ++ takeWhile notSlugChar rest)
                   =? length bef)%nat with false
          by (symmetry; apply Nat.eqb_neq; rewrite !length_app; simpl; lia).
        rewrite IH, replaceRuns_hit by
          (auto; pose proof (dropWhile_length notSlugChar rest); lia).
        reflexivity.
      * rewrite replaceFrom_miss by (rewrite m_non_alnum, Pa; reflexivity).
        rewrite IH by lia. now rewrite replaceRuns_miss.
Qed.

Lemma replaceAll_non_alnum s :
  replaceAll RE_NON_ALNUM (lit "-") s = replaceRuns notSlugChar (lit "-") s.
Proof. unfold replaceAll. apply (@replaceFrom_non_alnum (length s)); lia. Qed.

Lemma m_edge bef aft :
  m RE_EDGE_HYPHENS (MState bef aft []) (fun y => Some y)
  = match aft with
    | a :: rest =>
        if isHyphen a then
          match bef with
          | [] => Some (MState ([a] ++ takeWhile isHyphen rest)
                               (dropWhile isHyphen rest) [])
          | _ :: _ =>
              if forallb isHyphen rest
              then Some (MState ((bef ++ [a]) ++ rest) [] [])
              else None
          end
        else None
    | [] => None
    end.
Proof.
  unfold RE_EDGE_HYPHENS. cbn [m before].
  change (m (Chr 45%N)) with (step isHyphen).
  change (N.eqb 45%N) with isHyphen.
  change (fun y => match after y with [] => Some y | _ :: _ => None end)
    with atEnd.
  rewrite !plus_step.
  destruct aft as [|a rest].
  - destruct bef; reflexivity.
  - destruct (isHyphen a).
    + destruct bef as [|b bef].
      * rewrite greedy_all. reflexivity.
      * rewrite greedy_atEnd. simpl. destruct (forallb isHyphen rest); reflexivity.
    + destruct bef; reflexivity.
Qed.

Lemma m_edge_tail bef aft :
  bef <> [] ->
  m RE_EDGE_HYPHENS (MState bef aft []) (fun y => Some y)
  = match aft with
    | a :: rest =>
        if isHyphen a && forallb isHyphen rest
        then Some (MState ((bef ++ [a]) ++ rest) [] [])
        else None
    | [] => None
    end.
Proof.
  intros Hb. rewrite m_edge. destruct bef; [congruence|].
  destruct aft as [|a rest]; [reflexivity|]. destruct (isHyphen a); reflexivity.
Qed.

Lemma dropWhile_app_last p (l : jstring) a :
  dropWhile p (l ++ [a])
  = if forallb p l then (if p a then [] else [a]) else dropWhile p l ++ [a].
Proof.
  induction l as [|b l IH]; simpl.
  - destruct (p a); reflexivity.
  - destruct (p b); simpl; [exact IH | reflexivity].
Qed.

Lemma forallb_rev p (l : jstring) : forallb p (rev l) = forallb p l.
Proof.
  induction l as [|a l IH]; simpl; [reflexivity|].
  rewrite forallb_app, IH. simpl. rewrite andb_true_r. apply andb_comm.
Qed.

Lemma dropWhileEnd_cons p a (s : jstring) :
  dropWhileEnd p (a :: s)
  = if p a && forallb p s then [] else a :: dropWhileEnd p s.
Proof.
  unfold dropWhileEnd. simpl. rewrite dropWhile_app_last, forallb_rev.
  destruct (forallb p s) eqn:F.
  - assert (D : dropWhile p (rev s) = []).
    { rewrite <- forallb_rev in F. clear -F.
      induction (rev s) as [|b l IH]; simpl in *; [reflexivity|].
      destruct (p b); [auto | discriminate]. }
    rewrite D. destruct (p a); reflexivity.
  - rewrite andb_false_r, rev_app_distr. reflexivity.
Qed.

Lemma replaceFrom_edge_tail aft : forall bef fuel,
  bef <> [] -> (length aft < fuel)%nat ->
  replaceFrom fuel RE_EDGE_HYPHENS [] bef aft = dropWhileEnd isHyphen aft.
Proof.
  induction aft as [|a rest IH]; intros bef fuel Hb Hf.
  - apply replaceFrom_nil. now rewrite m_edge_tail.
  - destruct fuel as [|f]; [simpl in Hf; lia|]. simpl in Hf.
    rewrite dropWhileEnd_cons.
    assert (M := m_edge_tail (a :: rest) Hb). cbv iota beta in M.
    assert (Hb' : bef ++ [a] <> []) by (destruct bef; discriminate).
    destruct (isHyphen a && forallb isHyphen rest).
    + rewrite (@replaceFrom_hit f _ _ _ _ _ M). cbn [before after app].
      replace (length ((bef ++ [a]) ++ rest) =? length bef)%nat with false
        by (symmetry; apply Nat.eqb_neq; rewrite !length_app; simpl; lia).
      apply replaceFrom_nil. rewrite m_edge_tail; [reflexivity|].
      destruct bef; discriminate.
    + rewrite (@replaceFrom_miss f _ _ _ _ _ M).
      rewrite IH; [reflexivity | assumption | lia].
Qed.

Lemma replaceAll_edge s :
  replaceAll RE_EDGE_HYPHENS [] s = stripHyphens s.
Proof.
  unfold replaceAll, stripHyphens.
  destruct s as [|a rest].
  - reflexivity.
  - assert (M := m_edge [] (a :: rest)). cbv iota beta in M. cbn [dropWhile].
    destruct (isHyphen a) eqn:Ha.
    + rewrite (@replaceFrom_hit _ _ _ _ _ _ M). cbn [before after app length].
      rewrite replaceFrom_edge_tail; [reflexivity | discriminate |].
      pose proof (dropWhile_length isHyphen rest). simpl. lia.
    + rewrite (@replaceFrom_miss _ _ _ _ _ _ M).
      rewrite replaceFrom_edge_tail; [| discriminate | simpl; lia].
      rewrite dropWhileEnd_cons, Ha. reflexivity.
Qed.

Lemma lowerAscii_not_upper c : isUpperAZ (lowerAscii c) = false.
Proof.
  unfold lowerAscii. destruct (isUpperAZ c) eqn:E; [|exact E].
  unfold isUpperAZ, between in *.
  apply andb_true_iff in E. destruct E as [E1 E2].
  apply N.leb_le in E1. apply andb_false_iff. right. apply N.leb_gt. lia.
Qed.

Lemma lowerFrom_not_upper h s : forall before,
  forallb (fun x => negb (isUpperAZ x)) (lowerFrom h before s) = true.
Proof.
  induction s as [|c rest IH]; intros bef; simpl; [reflexivity|].
  rewrite forallb_app, IH, andb_true_r.
  destruct (c <? 128)%N.
  - simpl. now rewrite lowerAscii_not_upper.
  - apply lowerTable_not_upper.
Qed.

Lemma forallb_dropWhile (q p : char -> bool) (s : jstring) :
  forallb q s = true -> forallb q (dropWhile p s) = true.
Proof.
  induction s as [|a s IH]; simpl; [auto|].
  intros H. apply andb_true_iff in H. destruct H as [H1 H2].
  destruct (p a); simpl; [auto | now rewrite H1, H2].
Qed.

Lemma forallb_dropWhileEnd (q p : char -> bool) (s : jstring) :
  forallb q s = true -> forallb q (dropWhileEnd p s) = true.
Proof.
  intros H. unfold dropWhileEnd. rewrite forallb_rev.
  apply forallb_dropWhile. now rewrite forallb_rev.
Qed.

Lemma forallb_trim q s : forallb q s = true -> forallb q (trim s) = true.
Proof.
  intros H. unfold trim. now apply forallb_dropWhileEnd, forallb_dropWhile.
Qed.

Lemma replaceRuns_ext p q by_ (s : jstring) :
  forallb (fun c => Bool.eqb (p c) (q c)) s = true ->
  replaceRuns p by_ s = replaceRuns q by_ s.
Proof.
  induction s as [|a rest IH]; [reflexivity|].
  intros H. cbn [forallb] in H. apply andb_true_iff in H. destruct H as [Ha Hr].
  apply eqb_prop in Ha. specialize (IH Hr).
  destruct rest as [|b rest'].
  - simpl. now rewrite Ha.
  - rewrite !replaceRuns_cons2, Ha, IH.
    cbn [forallb] in Hr. apply andb_true_iff in Hr. destruct Hr as [Hb _].
    apply eqb_prop in Hb. now rewrite Hb.
Qed.

Lemma not_alnum_not_slug c :
  isUpperAZ c = false -> negb (isAlnum c) = notSlugChar c.
Proof.
  intros U. unfold isAlnum, notSlugChar, inClass, isDigit, isLowerAZ.
  simpl. rewrite U, !orb_false_r. f_equal. apply orb_comm.
Qed.

Lemma generateSlug_runs h title :
  generateSlug h title
  = stripHyphens (replaceRuns notSlugChar (lit "-") (trim (toLowerCase h title))).
Proof.
  unfold generateSlug. now rewrite replaceAll_non_alnum, replaceAll_edge.
Qed.

(** C5. For every title, [generateSlug] returns what the specification
    describes: the title in lower case, trimmed, with every maximal run of
    code units that are not ASCII letters or digits replaced by one hyphen,
    and without the hyphens at its two ends. *)
Theorem generateSlug_refines_words h title :
  generateSlug h title = slugOfWords h title.
Proof.
  rewrite generateSlug_runs. unfold slugOfWords. f_equal.
  apply replaceRuns_ext.
  apply forallb_trim. unfold toLowerCase.
  pose proof (lowerFrom_not_upper h title []) as H.
  rewrite forallb_forall in *. intros c Hc. specialize (H c Hc).
  apply negb_true_iff in H. rewrite not_alnum_not_slug by exact H.
  apply eqb_reflx.
Qed.

Lemma slug_char_not_hyphen c : notSlugChar c = false -> isHyphen c = false.
Proof.
  intros H. unfold isHyphen. destruct (N.eqb_spec HYPHEN c) as [E|E]; [|reflexivity].
  subst c. discriminate H.
Qed.

Lemma slug_char_of_class c : notSlugChar c = false -> slugChar c = true.
Proof.
  unfold notSlugChar, inClass, slugChar, isLowerAZ, isDigit.
  cbn [existsb inAtom]. rewrite orb_false_r. intros H.
  apply negb_false_iff in H. now rewrite H.
Qed.

Lemma noDoubleHyphen_cons a (s : jstring) :
  isHyphen a = false -> noDoubleHyphen s = true -> noDoubleHyphen (a :: s) = true.
Proof. intros Ha Hs. simpl. destruct s; [reflexivity|]. now rewrite Ha, Hs. Qed.

Lemma dropWhile_head p (s : jstring) b t : dropWhile p s = b :: t -> p b = false.
Proof.
  induction s as [|a s IH]; simpl; [discriminate|].
  destruct (p a) eqn:Pa; [exact IH|]. intros E; inversion E; now subst.
Qed.

(** Induction along the runs of a string. *)
Lemma replaceRuns_rect p by_ (P : jstring -> jstring -> Prop) :
  P [] [] ->
  (forall a rest, p a = true ->
     P (dropWhile p rest) (replaceRuns p by_ (dropWhile p rest)) ->
     P (a :: rest) (by_ ++ replaceRuns p by_ (dropWhile p rest))) ->
  (forall a rest, p a = false ->
     P rest (replaceRuns p by_ rest) ->
     P (a :: rest) (a :: replaceRuns p by_ rest)) ->
  forall s, P s (replaceRuns p by_ s).
Proof.
  intros H0 Hhit Hmiss s.
  assert (G : forall n (s : jstring), (length s <= n)%nat -> P s (replaceRuns p by_ s)).
  { induction n as [|n IH]; intros [|a rest] Hn; try exact H0.
    - simpl in Hn. lia.
    - simpl in Hn. destruct (p a) eqn:Pa.
      + rewrite replaceRuns_hit by exact Pa. apply Hhit; [exact Pa|].
        apply IH. pose proof (dropWhile_length p rest). lia.
      + rewrite replaceRuns_miss by exact Pa. apply Hmiss; [exact Pa|].
        apply IH. lia. }
  apply (G (length s)). lia.
Qed.

Lemma replaceRuns_chars (s : jstring) :
  forallb slugChar (replaceRuns notSlugChar (lit "-") s) = true.
Proof.
  pattern s, (replaceRuns notSlugChar (lit "-") s). apply replaceRuns_rect.
  - reflexivity.
  - intros a rest _ IH. exact IH.
  - intros a rest Pa IH. simpl. now rewrite (slug_char_of_class _ Pa), IH.
Qed.

Lemma replaceRuns_noDouble (s : jstring) :
  noDoubleHyphen (replaceRuns notSlugChar (lit "-") s) = true.
Proof.
  pattern s, (replaceRuns notSlugChar (lit "-") s). apply replaceRuns_rect.
  - reflexivity.
  - intros a rest _ IH.
    destruct (dropWhile notSlugChar rest) as [|b t] eqn:D; [reflexivity|].
    pose proof (dropWhile_head _ _ D) as Pb.
    rewrite replaceRuns_miss in * by exact Pb.
    change (lit "-" ++ b :: replaceRuns notSlugChar (lit "-") t)
      with (HYPHEN :: b :: replaceRuns notSlugChar (lit "-") t).
    cbn [noDoubleHyphen]. cbn [noDoubleHyphen] in IH.
    rewrite (slug_char_not_hyphen _ Pb) in IH |- *.
    rewrite andb_false_r. exact IH.
  - intros a rest Pa IH. apply noDoubleHyphen_cons; [|exact IH].
    now apply slug_char_not_hyphen.
Qed.

Lemma noDoubleHyphen_tail a (s : jstring) :
  noDoubleHyphen (a :: s) = true -> noDoubleHyphen s = true.
Proof.
  simpl. destruct s; [reflexivity|]. intros H.
  apply andb_true_iff in H. tauto.
Qed.

Lemma noDoubleHyphen_dropWhile p (s : jstring) :
  noDoubleHyphen s = true -> noDoubleHyphen (dropWhile p s) = true.
Proof.
  induction s as [|a s IH]; [auto|]. intros H. simpl.
  destruct (p a); [|exact H]. apply IH. eapply noDoubleHyphen_tail, H.
Qed.

Lemma noDoubleHyphen_prefix (l1 l2 : jstring) :
  noDoubleHyphen (l1 ++ l2) = true -> noDoubleHyphen l1 = true.
Proof.
  induction l1 as [|a l1 IH]; [reflexivity|].
  destruct l1 as [|b l1]; [reflexivity|].
  cbn [app noDoubleHyphen] in *. intros H.
  apply andb_true_iff in H. destruct H as [H1 H2].
  rewrite H1. simpl. apply IH. exact H2.
Qed.

Lemma dropWhile_suffix p (s : jstring) : exists t, s = t ++ dropWhile p s.
Proof.
  induction s as [|a s [t IH]]; simpl.
  - now exists [].
  - destruct (p a).
    + exists (a :: t). simpl. now f_equal.
    + now exists [].
Qed.

Lemma dropWhileEnd_prefix p (s : jstring) : exists t, s = dropWhileEnd p s ++ t.
Proof.
  unfold dropWhileEnd. destruct (dropWhile_suffix p (rev s)) as [t E].
  exists (rev t). rewrite <- rev_app_distr, <- E. now rewrite rev_involutive.
Qed.

Lemma dropWhile_starts (s : jstring) :
  startsWithHyphen (dropWhile isHyphen s) = false.
Proof.
  destruct (dropWhile isHyphen s) as [|b t] eqn:D; [reflexivity|].
  simpl. eapply dropWhile_head, D.
Qed.

Lemma stripHyphens_starts (s : jstring) :
  startsWithHyphen (stripHyphens s) = false.
Proof.
  unfold stripHyphens. pose proof (dropWhile_starts s) as H.
  destruct (dropWhile isHyphen s) as [|a t]; [reflexivity|].
  simpl in H. rewrite dropWhileEnd_cons, H. simpl. exact H.
Qed.

Lemma stripHyphens_ends (s : jstring) :
  endsWithHyphen (stripHyphens s) = false.
Proof.
  unfold endsWithHyphen, stripHyphens, dropWhileEnd.
  rewrite rev_involutive. apply dropWhile_starts.
Qed.

Lemma stripHyphens_noDouble (s : jstring) :
  noDoubleHyphen s = true -> noDoubleHyphen (stripHyphens s) = true.
Proof.
  intros H. unfold stripHyphens.
  destruct (dropWhileEnd_prefix isHyphen (dropWhile isHyphen s)) as [t E].
  apply noDoubleHyphen_prefix with (l2 := t). rewrite <- E.
  now apply noDoubleHyphen_dropWhile.
Qed.

(** C6. For every title, the slug holds only lower-case ASCII letters,
    digits and hyphens, neither starts nor ends with a hyphen, and has no two
    hyphens in a row. *)
Theorem generateSlug_shape h title :
  forallb slugChar (generateSlug h title) = true
  /\ startsWithHyphen (generateSlug h title) = false
  /\ endsWithHyphen (generateSlug h title) = false
  /\ noDoubleHyphen (generateSlug h title) = true.
Proof.
  rewrite generateSlug_runs. repeat split.
  - unfold stripHyphens.
    apply forallb_dropWhileEnd, forallb_dropWhile, replaceRuns_chars.
  - apply stripHyphens_starts.
  - apply stripHyphens_ends.
  - apply stripHyphens_noDouble, replaceRuns_noDouble.
Qed.

(** C10. Some title is not empty after trimming, so that it passes the
    check of the required fields, and yet its slug is the empty string: the
    title [!!!], which the pre-save hook saves with an empty slug. *)
Theorem empty_slug h :
  exists t,
    isMissing (VString t) = false /\ generateSlug h t = []
    /\ exists saved,
         pre_save h true punctuationEvent = Return saved
         /\ title punctuationEvent = VString t /\ slug saved = [].
Proof.
  exists (lit "!!!"). split; [reflexivity|]. split; [reflexivity|].
  eexists. split; [reflexivity|]. split; reflexivity.
Qed.

End SlugFacts.


(** ** normalizeTime *)

Module TimeFacts.

Import DateTime EventModel MatcherSpec TimeSpec RegExpFacts.
Local Open Scope N_scope.

Lemma m_time_shape s :
  match m RE_TIME (MState [] s []) (fun y => Some y) with
  | Some y =>
      timeShape s = Some (tpl (group y 1%nat) ++ lit ":" ++ tpl (group y 2%nat))
  | None => timeShape s = None
  end.
Proof.
  unfold RE_TIME.
  destruct s as [|h1 [|h2 [|c1 [|m1 [|m2 [|c2 [|s1 [|s2 [|x rest]]]]]]]]];
  cbn -[between isDigit N.eqb isWhiteSpace Nat.ltb].
  all: try reflexivity.
  all: unfold hourOK, minuteOK, isColon, COLON.
  all: repeat match goal with
       | |- context [between ?a ?b ?c] => destruct (between a b c)
       | |- context [isDigit ?c] => destruct (isDigit c)
       | |- context [(?a =? ?c)%N] => destruct (a =? c)%N
       end.
  all: cbn -[Nat.ltb].
  all: try reflexivity.
  all: repeat match goal with
       | |- context [(?a <? ?b)%nat] =>
           destruct (Nat.ltb_spec a b); [|exfalso; simpl in *; lia]
       end.
  all: cbn.
  all: try reflexivity.
  all: repeat match goal with
       | |- context [if ?b then None else None] => destruct b
       end; reflexivity.
Qed.

Lemma normalizeTime_shape t :
  normalizeTime t
  = match timeShape (trim t) with
    | Some r => Return r
    | None => Throw INVALID_TIME
    end.
Proof.
  unfold normalizeTime, jmatch, RE_TIME. rewrite search_anchored.
  fold RE_TIME. pose proof (m_time_shape (trim t)) as H.
  destruct (m RE_TIME _ _); rewrite H; reflexivity.
Qed.

Lemma pad2 v : pad 2 v = [digitChar ((v / 10) mod 10); digitChar (v mod 10)].
Proof. reflexivity. Qed.

Lemma between_true lo hi c : between lo hi c = true <-> lo <= c <= hi.
Proof.
  unfold between. rewrite andb_true_iff, !N.leb_le. tauto.
Qed.

Lemma digit_pair a b :
  isDigit a = true -> isDigit b = true ->
  pad 2 (10 * (Z.of_N a - 48) + (Z.of_N b - 48)) = [a; b].
Proof.
  unfold isDigit. rewrite !between_true. intros Ha Hb. rewrite pad2.
  unfold digitChar.
  replace ((10 * (Z.of_N a - 48) + (Z.of_N b - 48)) / 10)%Z
    with (Z.of_N a - 48)%Z
    by (apply Z.div_unique with (r := (Z.of_N b - 48)%Z); lia).
  replace ((10 * (Z.of_N a - 48) + (Z.of_N b - 48)) mod 10)%Z
    with (Z.of_N b - 48)%Z
    by (apply Z.mod_unique with (q := (Z.of_N a - 48)%Z); lia).
  rewrite Z.mod_small by lia.
  f_equal; [|f_equal]; lia.
Qed.

Lemma In_range (v : Z) (n : nat) :
  (0 <= v < Z.of_nat n)%Z -> In v (map Z.of_nat (seq 0 n)).
Proof.
  intros H. apply in_map_iff. exists (Z.to_nat v). split; [lia|].
  apply in_seq. lia.
Qed.

Lemma hourOK_pad hh : (0 <= hh <= 23)%Z -> pairOK hourOK hh = true.
Proof.
  intros H.
  assert (A : forallb (pairOK hourOK) (map Z.of_nat (seq 0 24)) = true)
    by (vm_compute; reflexivity).
  rewrite forallb_forall in A. apply A, In_range. lia.
Qed.

Lemma minuteOK_pad mm : (0 <= mm <= 59)%Z -> pairOK minuteOK mm = true.
Proof.
  intros H.
  assert (A : forallb (pairOK minuteOK) (map Z.of_nat (seq 0 60)) = true)
    by (vm_compute; reflexivity).
  rewrite forallb_forall in A. apply A, In_range. lia.
Qed.

Lemma hourOK_iff h1 h2 :
  hourOK h1 h2 = true <-> exists hh, (0 <= hh <= 23)%Z /\ pad 2 hh = [h1; h2].
Proof.
  split.
  - unfold hourOK. intros H.
    exists (10 * (Z.of_N h1 - 48) + (Z.of_N h2 - 48))%Z.
    apply orb_true_iff in H. destruct H as [H|H];
      apply andb_true_iff in H; destruct H as [H1 H2].
    + split; [|apply digit_pair; [|exact H2]].
      * unfold isDigit in H2. apply between_true in H1, H2. lia.
      * unfold isDigit. apply between_true in H1. apply between_true. lia.
    + apply N.eqb_eq in H1. subst h1. split.
      * apply between_true in H2. lia.
      * apply digit_pair; [reflexivity|].
        unfold isDigit. apply between_true in H2. apply between_true. lia.
  - intros (hh & R & E). pose proof (hourOK_pad R) as P.
    unfold pairOK in P. now rewrite E in P.
Qed.

Lemma minuteOK_iff m1 m2 :
  minuteOK m1 m2 = true <-> exists mm, (0 <= mm <= 59)%Z /\ pad 2 mm = [m1; m2].
Proof.
  split.
  - unfold minuteOK. intros H.
    exists (10 * (Z.of_N m1 - 48) + (Z.of_N m2 - 48))%Z.
    apply andb_true_iff in H. destruct H as [H1 H2].
    split; [|apply digit_pair; [|exact H2]].
    + unfold isDigit in H2. apply between_true in H1, H2. lia.
    + unfold isDigit. apply between_true in H1. apply between_true. lia.
  - intros (mm & R & E). pose proof (minuteOK_pad R) as P.
    unfold pairOK in P. now rewrite E in P.
Qed.

Lemma timeShape_form s r : timeShape s = Some r <-> TimeForm s r.
Proof.
  split.
  - destruct s as [|h1 [|h2 [|c1 [|m1 [|m2 [|c2 [|s1 [|s2 [|x rest]]]]]]]]];
      try discriminate; cbn [timeShape].
    + destruct (hourOK h1 h2) eqn:Hh; [|discriminate].
      destruct (isColon c1) eqn:Hc; [|discriminate].
      destruct (minuteOK m1 m2) eqn:Hm; [|discriminate].
      cbn [andb]. intros E; inversion E; subst r; clear E.
      apply hourOK_iff in Hh. destruct Hh as (hh & Rh & Eh).
      apply minuteOK_iff in Hm. destruct Hm as (mm & Rm & Em).
      apply N.eqb_eq in Hc. subst c1.
      exists hh, mm. rewrite Eh, Em. auto.
    + destruct (hourOK h1 h2) eqn:Hh; [|discriminate].
      destruct (isColon c1) eqn:Hc; [|discriminate].
      destruct (minuteOK m1 m2) eqn:Hm; [|discriminate].
      destruct (isColon c2) eqn:Hc2; [|discriminate].
      destruct (minuteOK s1 s2) eqn:Hs; [|discriminate].
      cbn [andb]. intros E; inversion E; subst r; clear E.
      apply hourOK_iff in Hh. destruct Hh as (hh & Rh & Eh).
      apply minuteOK_iff in Hm. destruct Hm as (mm & Rm & Em).
      apply minuteOK_iff in Hs. destruct Hs as (ss & Rs & Es).
      apply N.eqb_eq in Hc, Hc2. subst c1 c2.
      exists hh, mm. rewrite Eh, Em. repeat split; try tauto.
      right. exists ss. rewrite Es. auto.
  - intros (hh & mm & Rh & Rm & Er & Es).
    assert (Hh : hourOK (digitChar ((hh / 10) mod 10)) (digitChar (hh mod 10)) = true)
      by (apply hourOK_iff; exists hh; auto).
    assert (Hm : minuteOK (digitChar ((mm / 10) mod 10)) (digitChar (mm mod 10)) = true)
      by (apply minuteOK_iff; exists mm; auto).
    rewrite !pad2 in Er. destruct Es as [Es | (ss & Rs & Es)].
    + subst s r. cbn [app timeShape]. now rewrite Hh, Hm.
    + assert (Hs : minuteOK (digitChar ((ss / 10) mod 10)) (digitChar (ss mod 10)) = true)
        by (apply minuteOK_iff; exists ss; auto).
      rewrite pad2 in Es. subst s r. cbn [app timeShape]. now rewrite Hh, Hm, Hs.
Qed.

(** C4, as amended. [normalizeTime t] succeeds exactly when [t] without its
    leading and trailing white space has the form HH:MM or HH:MM:SS, with HH
    in 00-23 and MM, SS in 00-59, and then returns the HH:MM part; for every
    other input it fails with the error of an invalid time.  In particular
    it fails on 9:05:30 and returns 09:05 on 09:05:30. *)
Theorem normalizeTime_trimmed_form t :
  (forall r, normalizeTime t = Return r <-> TimeForm (trim t) r)
  /\ (normalizeTime t = Throw INVALID_TIME <-> ~ exists r, TimeForm (trim t) r)
  /\ normalizeTime (lit "9:05:30") = Throw INVALID_TIME
  /\ normalizeTime (lit "09:05:30") = Return (lit "09:05").
Proof.
  split; [|split; [|split; reflexivity]].
  - intros r. rewrite normalizeTime_shape, <- timeShape_form.
    destruct (timeShape (trim t)); split; intros E;
      inversion E; subst; reflexivity.
  - rewrite normalizeTime_shape. split.
    + destruct (timeShape (trim t)) eqn:S; [discriminate|].
      intros _ [r F]. apply timeShape_form in F. congruence.
    + intros N. destruct (timeShape (trim t)) eqn:S; [|reflexivity].
      exfalso. apply N. exists j. now apply timeShape_form.
Qed.

(** C4 as stated fails: a time with a leading space does not have the form
    HH:MM, and is accepted. *)
Lemma normalizeTime_untrimmed :
  normalizeTime (lit " 09:05") = Return (lit "09:05")
  /\ ~ exists r, TimeForm (lit " 09:05") r.
Proof.
  split; [reflexivity|].
  intros [r F]. apply timeShape_form in F. discriminate F.
Qed.

End TimeFacts.


(** ** The e-mail pattern of the Booking model *)

Module EmailFacts.

Import EventModel BookingModel MatcherSpec EmailSpec RegExpFacts.
Local Open Scope N_scope.

Lemma email_class c :
  negb (inClass [CSpace; CChar 64] c) = nonSpaceNonAt c.
Proof.
  unfold inClass, nonSpaceNonAt, AT. cbn [existsb inAtom].
  rewrite orb_false_r. apply negb_orb.
Qed.

Lemma m_email v :
  succeeds (m EMAIL_REGEX (MState [] v []) (fun y => Some y)) <-> EmailPattern v.
Proof.
  unfold EMAIL_REGEX. cbn [m before].
  change (m (NClass [CSpace; CChar 64]))
    with (step (fun a => negb (inClass [CSpace; CChar 64] a))).
  rewrite plus_succeeds. cbn [after before caps].
  unfold EmailPattern. split.
  - intros (a & post & E & Na & Fa & H).
    apply step_succeeds in H. cbn [after before caps] in H.
    destruct H as (x & r1 & E1 & Hx & H). apply N.eqb_eq in Hx. subst x post.
    apply plus_succeeds in H. cbn [after before caps] in H.
    destruct H as (b & post2 & E2 & Nb & Fb & H).
    apply step_succeeds in H. cbn [after before caps] in H.
    destruct H as (x & r2 & E3 & Hx & H). apply N.eqb_eq in Hx. subst x post2 r1.
    apply plus_succeeds in H. cbn [after before caps] in H.
    destruct H as (c & post3 & E4 & Nc & Fc & [z H]).
    destruct post3; [|discriminate]. rewrite app_nil_r in E4. subst r2.
    exists a, b, c.
    rewrite (forallb_pointwise _ _ a email_class) in Fa.
    rewrite (forallb_pointwise _ _ b email_class) in Fb.
    rewrite (forallb_pointwise _ _ c email_class) in Fc.
    repeat split; auto.
  - intros (a & b & c & E & Na & Nb & Nc & Fa & Fb & Fc).
    rewrite <- (forallb_pointwise _ _ a email_class) in Fa.
    rewrite <- (forallb_pointwise _ _ b email_class) in Fb.
    rewrite <- (forallb_pointwise _ _ c email_class) in Fc.
    exists a, ([AT] ++ b ++ [DOT] ++ c). repeat split; auto.
    apply step_succeeds. cbn [after before caps].
    exists AT, (b ++ [DOT] ++ c). repeat split.
    apply plus_succeeds. cbn [after before caps].
    exists b, ([DOT] ++ c). repeat split; auto.
    apply step_succeeds. cbn [after before caps].
    exists DOT, c. repeat split.
    apply plus_succeeds. cbn [after before caps].
    exists c, []. rewrite app_nil_r. repeat split; auto.
    eexists. reflexivity.
Qed.

Lemma validator_pattern v : validator v = true <-> EmailPattern v.
Proof.
  rewrite <- m_email. unfold validator, test, EMAIL_REGEX.
  rewrite search_anchored. unfold succeeds.
  destruct (m _ _ _) as [y|]; split; intros H; eauto; try discriminate.
  destruct H as [z H]; discriminate.
Qed.

(** C3, as amended. The validator accepts a value exactly when it is one or
    more code units that are neither white space nor [@], then [@], then one
    or more such code units, then a dot, then one or more such code units
    again; the pre-save hook tests the e-mail as it stands and refuses it
    with the error of an invalid format exactly when it has not this
    form. *)
Theorem email_validation :
  (forall v, validator v = true <-> EmailPattern v)
  /\ (forall (ObjectId Reason : Type)
             (eventExists : ObjectId -> completion bool Reason)
             (isNew eventIdModified : bool) (booking : BookingDocument ObjectId),
        pre_save eventExists isNew eventIdModified booking
          = Throw (Raised (Error "Invalid email format."))
        <-> ~ EmailPattern (email booking)).
Proof.
  split; [exact validator_pattern|].
  intros ObjectId Reason eventExists isNew eventIdModified booking.
  unfold pre_save. rewrite <- validator_pattern. unfold validator.
  destruct (test EMAIL_REGEX (email booking)); cbn [negb].
  - split; [|congruence].
    destruct (isNew || eventIdModified);
      [destruct (eventExists (eventId booking)) as [[|]|reason]; cbn [negb]|];
      discriminate.
  - split; [discriminate | reflexivity].
Qed.

(** C3 as stated fails: [a@b.c@d] has the form with a last part that is
    only free of white space, and is refused. *)
Lemma email_claimed_pattern_counterexample :
  ClaimedEmailPattern (lit "a@b.c@d") /\ validator (lit "a@b.c@d") = false.
Proof.
  split; [|reflexivity].
  exists (lit "a"), (lit "b"), (lit "c@d").
  repeat split; try discriminate; reflexivity.
Qed.

End EmailFacts.


(** ** The calendar *)

Module CalendarFacts.

Import DateTime DateSpec.
Local Open Scope Z_scope.

Lemma DaysInYear_cases y : DaysInYear y = 365 \/ DaysInYear y = 366.
Proof.
  unfold DaysInYear.
  destruct (y mod 4 =? 0), (y mod 100 =? 0), (y mod 400 =? 0); simpl; auto.
Qed.

Lemma DayFromYear_succ y : DayFromYear (y + 1) = DayFromYear y + DaysInYear y.
Proof.
  unfold DayFromYear, DaysInYear.
  destruct (Z.eqb_spec (y mod 4) 0), (Z.eqb_spec (y mod 100) 0),
    (Z.eqb_spec (y mod 400) 0); cbn [negb];
  Z.div_mod_to_equations; lia.
Qed.

Lemma DayFromYear_estimate d :
  let y := 1970 + (400 * d) / 146097 in
  DayFromYear (y - 1) <= d < DayFromYear (y + 2).
Proof.
  unfold DayFromYear. cbv zeta. Z.div_mod_to_equations. lia.
Qed.

Lemma DayFromYear_lt y y' : y < y' -> DayFromYear y < DayFromYear y'.
Proof. unfold DayFromYear. intros H. Z.div_mod_to_equations. lia. Qed.

(** [YearFromDay d] is the year of ECMA-262: the largest one that starts
    not after day [d]. *)
Lemma YearFromDay_spec d :
  DayFromYear (YearFromDay d) <= d < DayFromYear (YearFromDay d + 1).
Proof.
  pose proof (DayFromYear_estimate d) as E. cbv zeta in E.
  unfold YearFromDay. cbv zeta.
  set (y := 1970 + 400 * d / 146097) in *.
  destruct (Z.ltb_spec d (DayFromYear y)).
  - replace (y - 1 + 1) with y by lia. lia.
  - destruct (Z.leb_spec (DayFromYear (y + 1)) d).
    + replace (y + 1 + 1) with (y + 2) by lia. lia.
    + lia.
Qed.

Lemma YearFromDay_unique d y :
  DayFromYear y <= d < DayFromYear (y + 1) -> YearFromDay d = y.
Proof.
  intros H. pose proof (YearFromDay_spec d) as S.
  destruct (Z.lt_trichotomy (YearFromDay d) y) as [L|[E|G]]; [|exact E|].
  - destruct (Z.eq_dec (YearFromDay d + 1) y) as [<-|N]; [lia|].
    assert (L' : YearFromDay d + 1 < y) by lia.
    apply DayFromYear_lt in L'. lia.
  - destruct (Z.eq_dec (y + 1) (YearFromDay d)) as [E|N];
      [rewrite <- E in S; lia|].
    assert (G' : y + 1 < YearFromDay d) by lia.
    apply DayFromYear_lt in G'. lia.
Qed.

Lemma DayWithinYear_range t :
  0 <= DayWithinYear t < DaysInYear (YearFromTime t).
Proof.
  unfold DayWithinYear, YearFromTime.
  pose proof (YearFromDay_spec (Day t)) as S.
  rewrite DayFromYear_succ in S. lia.
Qed.

Lemma MakeDay_in_year y mn dt :
  0 <= mn <= 11 -> MakeDay y mn dt = DayFromYear y + monthStart y mn + dt - 1.
Proof.
  intros H. unfold MakeDay.
  rewrite Z.div_small, Z.mod_small, Z.add_0_r by lia. reflexivity.
Qed.

Lemma MonthFromTime_range t : 0 <= MonthFromTime t <= 11.
Proof.
  unfold MonthFromTime.
  repeat match goal with
         | |- context [if ?a <? ?b then _ else _] => destruct (a <? b)
         end; lia.
Qed.

Lemma MakeDay_inverse t :
  MakeDay (YearFromTime t) (MonthFromTime t) (DateFromTime t) = Day t.
Proof.
  rewrite MakeDay_in_year by apply MonthFromTime_range.
  pose proof (DayWithinYear_range t) as R.
  unfold DateFromTime, MonthFromTime, monthStart, InLeapYear in *.
  set (y := YearFromTime t) in *. set (d := DayWithinYear t) in *.
  assert (D : Day t = DayFromYear y + d) by (unfold d, DayWithinYear, y; lia).
  rewrite D. clear D.
  destruct (Z.eqb_spec (DaysInYear y) 366) as [L|L].
  all: repeat match goal with
       | |- context [if ?a <? ?b then _ else _] =>
           destruct (Z.ltb_spec a b)
       end.
  all: cbv iota; lia.
Qed.

Lemma Day_MakeDate day tod :
  0 <= tod < msPerDay -> Day (MakeDate day tod) = day.
Proof.
  intros H. unfold Day, MakeDate.
  symmetry. apply Z.div_unique with (r := tod); lia.
Qed.

Lemma months_1_12 mo : 1 <= mo <= 12 ->
  mo = 1 \/ mo = 2 \/ mo = 3 \/ mo = 4 \/ mo = 5 \/ mo = 6 \/ mo = 7
  \/ mo = 8 \/ mo = 9 \/ mo = 10 \/ mo = 11 \/ mo = 12.
Proof. lia. Qed.

Lemma civil_of_MakeDay y mo dd t :
  1 <= mo <= 12 -> 1 <= dd <= DaysInMonth y mo ->
  Day t = MakeDay y (mo - 1) dd ->
  YearFromTime t = y /\ MonthFromTime t = mo - 1 /\ DateFromTime t = dd.
Proof.
  intros Hm Hd Ht. rewrite MakeDay_in_year in Ht by lia.
  pose proof (DaysInYear_cases y) as C.
  assert (Y : YearFromTime t = y).
  { unfold YearFromTime. apply YearFromDay_unique. rewrite Ht, DayFromYear_succ.
    unfold monthStart, DaysInMonth in *.
    destruct (Z.eqb_spec (DaysInYear y) 366);
      destruct (months_1_12 Hm) as [E|[E|[E|[E|[E|[E|[E|[E|[E|[E|[E|E]]]]]]]]]]];
      subst mo; cbn in Hd |- *; lia. }
  unfold DateFromTime, MonthFromTime, DayWithinYear, InLeapYear.
  rewrite Y, Ht.
  unfold monthStart, DaysInMonth in *.
  destruct (Z.eqb_spec (DaysInYear y) 366);
    destruct (months_1_12 Hm) as [E|[E|[E|[E|[E|[E|[E|[E|[E|[E|[E|E]]]]]]]]]]];
    subst mo; cbn in Hd; cbn [Z.sub Z.add Z.opp Z.pos_sub Pos.pred_double];
    repeat match goal with
           | |- context [if ?a <? ?b then _ else _] =>
               destruct (Z.ltb_spec a b); try lia
           end; cbv iota; repeat split; lia.
Qed.

Lemma DateFromTime_range t : 1 <= DateFromTime t <= 31.
Proof.
  pose proof (DayWithinYear_range t) as R.
  pose proof (DaysInYear_cases (YearFromTime t)) as C.
  unfold DateFromTime, MonthFromTime, InLeapYear in *.
  set (d := DayWithinYear t) in *.
  destruct (Z.eqb_spec (DaysInYear (YearFromTime t)) 366) as [L|L].
  all: repeat match goal with
       | |- context [if ?a <? ?b then _ else _] =>
           destruct (Z.ltb_spec a b)
       end.
  all: cbv iota; lia.
Qed.

Lemma DaysInMonth_le_31 y mo : DaysInMonth y mo <= 31.
Proof.
  unfold DaysInMonth.
  destruct (DaysInYear y =? 366);
    destruct mo as [|p|p]; try lia;
    do 4 (try destruct p as [p|p|]; try lia).
Qed.

Lemma digitChar_range d : 0 <= d <= 9 -> (48 <= digitChar d <= 57)%N.
Proof. unfold digitChar. lia. Qed.

Lemma digitVal_digitChar d : 0 <= d <= 9 -> digitVal (digitChar d) = Some d.
Proof.
  intros H. pose proof (digitChar_range H) as R.
  unfold digitVal, isDigit, between.
  replace (48 <=? digitChar d)%N with true by (symmetry; apply N.leb_le; lia).
  replace (digitChar d <=? 57)%N with true by (symmetry; apply N.leb_le; lia).
  cbn [andb]. f_equal. unfold digitChar. lia.
Qed.

Lemma fixedNumber_add n : forall k acc s,
  fixedNumber (n + k) acc s
  = match fixedNumber n acc s with
    | Some (v, r) => fixedNumber k v r
    | None => None
    end.
Proof.
  induction n as [|n IH]; intros k acc s; [reflexivity|].
  cbn [Nat.add fixedNumber]. destruct s as [|c rest]; [reflexivity|].
  destruct (digitVal c); [apply IH | reflexivity].
Qed.

Lemma fixedNumber_pad n : forall v acc rest,
  0 <= v < 10 ^ Z.of_nat n ->
  fixedNumber n acc (pad n v ++ rest) = Some (acc * 10 ^ Z.of_nat n + v, rest).
Proof.
  induction n as [|n IH]; intros v acc rest H.
  - cbn in *. do 2 f_equal. lia.
  - replace (S n) with (n + 1)%nat by lia. rewrite fixedNumber_add.
    replace (n + 1)%nat with (S n) by lia. cbn [pad].
    rewrite <- app_assoc.
    assert (P : 10 ^ Z.of_nat (S n) = 10 * 10 ^ Z.of_nat n)
      by (rewrite Nat2Z.inj_succ, Z.pow_succ_r; lia).
    rewrite P in *.
    assert (0 < 10 ^ Z.of_nat n) by (apply Z.pow_pos_nonneg; lia).
    rewrite IH by (Z.div_mod_to_equations; lia).
    cbn [app fixedNumber].
    rewrite digitVal_digitChar by (Z.div_mod_to_equations; lia).
    do 2 f_equal. Z.div_mod_to_equations. lia.
Qed.

Lemma fixedNumber_pad0 n v rest :
  0 <= v < 10 ^ Z.of_nat n ->
  fixedNumber n 0 (pad n v ++ rest) = Some (v, rest).
Proof. intros H. rewrite fixedNumber_pad by exact H. do 2 f_equal. Qed.

Lemma pad_chars n : forall v,
  forallb isDigit (pad n v) = true.
Proof.
  induction n as [|n IH]; intros v; [reflexivity|].
  cbn [pad]. rewrite forallb_app, IH. cbn [forallb andb].
  rewrite andb_true_r.
  assert (R : 0 <= v mod 10 <= 9) by (Z.div_mod_to_equations; lia).
  apply digitChar_range in R. unfold isDigit, between.
  apply andb_true_iff. split; apply N.leb_le; lia.
Qed.

Lemma pad_length n : forall v, length (pad n v) = n.
Proof.
  induction n as [|n IH]; intros v; [reflexivity|].
  cbn [pad]. rewrite length_app, IH. simpl. lia.
Qed.

Lemma expect_hit c rest : expect c (c :: rest) = Some rest.
Proof. unfold expect. now rewrite N.eqb_refl. Qed.

Lemma parseField_pad lo hi v rest :
  0 <= v < 100 -> lo <= v <= hi ->
  parseField lo hi (pad 2 v ++ rest) = Some (v, rest).
Proof.
  intros H R. unfold parseField.
  rewrite fixedNumber_pad0 by (cbn; lia).
  replace (lo <=? v) with true by (symmetry; apply Z.leb_le; lia).
  replace (v <=? hi) with true by (symmetry; apply Z.leb_le; lia).
  reflexivity.
Qed.

Lemma digit_not c x : isDigit x = false -> isDigit c = true -> (c =? x)%N = false.
Proof. intros Hx Hc. destruct (N.eqb_spec c x); [congruence | reflexivity]. Qed.

Lemma pad_S_cons n v : exists a l, pad (S n) v = a :: l /\ isDigit a = true.
Proof.
  pose proof (pad_chars (S n) v) as F. pose proof (pad_length (S n) v) as L.
  destruct (pad (S n) v) as [|a l]; [discriminate|].
  cbn [forallb] in F. apply andb_true_iff in F. exists a, l. tauto.
Qed.

Lemma parseYear_yearString y rest :
  -999999 <= y <= 999999 ->
  parseYear (yearString y ++ rest) = Some (y, rest).
Proof.
  intros R. unfold yearString.
  destruct (Z.leb_spec 0 y) as [P|P]; cbn [andb].
  - destruct (Z.leb_spec y 9999) as [Q|Q].
    + destruct (pad_S_cons 3 y) as (a & l & E & D).
      pose proof (@fixedNumber_pad0 4 y rest) as F. rewrite E in *.
      cbn [app parseYear].
      rewrite (@digit_not a PLUS), (@digit_not a HYPHEN) by (reflexivity || exact D).
      apply F. cbn. lia.
    + destruct (Z.ltb_spec y 0); [lia|].
      cbn [app parseYear]. rewrite N.eqb_refl.
      rewrite Z.abs_eq by lia. apply fixedNumber_pad0. cbn. lia.
  - destruct (Z.ltb_spec y 0); [|lia].
    cbn [app parseYear].
    replace (HYPHEN =? PLUS)%N with false by reflexivity.
    rewrite N.eqb_refl.
    rewrite Z.abs_neq by lia. rewrite fixedNumber_pad0 by (cbn; lia).
    destruct (Z.eqb_spec (- y) 0); [lia|]. do 2 f_equal. lia.
Qed.

Lemma parseMonthDay_fmt mo dd rest :
  1 <= mo <= 12 -> 1 <= dd <= 31 ->
  parseMonthDay ([HYPHEN] ++ pad 2 mo ++ [HYPHEN] ++ pad 2 dd ++ rest)
  = Some (mo, dd, rest).
Proof.
  intros Hm Hd. unfold parseMonthDay. cbn [app]. rewrite expect_hit.
  change (pad 2 mo ++ HYPHEN :: pad 2 dd ++ rest)
    with (pad 2 mo ++ (HYPHEN :: pad 2 dd ++ rest)).
  rewrite parseField_pad by lia. rewrite expect_hit.
  rewrite parseField_pad by lia. reflexivity.
Qed.

Lemma parseISO_dateString h t :
  -999999 <= YearFromTime t <= 999999 ->
  parseISO h (dateString t) = Some (MakeDate (Day t) 0).
Proof.
  intros Y. unfold parseISO, dateString.
  rewrite parseYear_yearString by exact Y.
  pose proof (MonthFromTime_range t) as M. pose proof (DateFromTime_range t) as D.
  rewrite <- (app_nil_r (pad 2 (DateFromTime t))).
  rewrite parseMonthDay_fmt by lia.
  replace (MonthFromTime t + 1 - 1) with (MonthFromTime t) by lia.
  now rewrite MakeDay_inverse.
Qed.

Lemma YearFromTime_bound t :
  Z.abs t <= 8640000000000000 -> -999999 <= YearFromTime t <= 999999.
Proof.
  intros H. unfold YearFromTime.
  pose proof (YearFromDay_spec (Day t)) as S.
  assert (B : -100000000 <= Day t <= 100000000)
    by (unfold Day, msPerDay; Z.div_mod_to_equations; lia).
  set (y := YearFromDay (Day t)) in *.
  unfold DayFromYear in S. Z.div_mod_to_equations. lia.
Qed.

Lemma TimeClip_Some t t' :
  TimeClip t = Some t' <-> t' = t /\ Z.abs t <= 8640000000000000.
Proof.
  unfold TimeClip. destruct (Z.ltb_spec 8640000000000000 (Z.abs t)); split.
  - discriminate.
  - intros [_ ?]. lia.
  - intros E; inversion E. split; [reflexivity | lia].
  - intros [-> _]. reflexivity.
Qed.

Lemma dateString_Day t1 t2 : Day t1 = Day t2 -> dateString t1 = dateString t2.
Proof.
  intros E.
  unfold dateString, DateFromTime, MonthFromTime, InLeapYear, DayWithinYear,
    YearFromTime.
  now rewrite E.
Qed.

Lemma parseOffset_fmt east oh om :
  0 <= oh <= 23 -> 0 <= om <= 59 ->
  parseOffset ([signChar east] ++ pad 2 oh ++ [COLON] ++ pad 2 om)
  = Some (Some (offsetMs east oh om)).
Proof.
  intros Ho Hm. unfold parseOffset, offsetMs. cbn [app].
  replace (signChar east =? LETTER_Z)%N with false
    by (destruct east; reflexivity).
  replace ((signChar east =? PLUS)%N || (signChar east =? HYPHEN)%N) with true
    by (destruct east; reflexivity).
  change (pad 2 oh ++ COLON :: pad 2 om)
    with (pad 2 oh ++ (COLON :: pad 2 om)).
  rewrite parseField_pad by lia. rewrite expect_hit.
  rewrite <- (app_nil_r (pad 2 om)). rewrite parseField_pad by lia.
  destruct east; reflexivity.
Qed.

Lemma parseTimeOfDay_fmt hh mi ss sign rest :
  0 <= hh <= 23 -> 0 <= mi <= 59 -> 0 <= ss <= 59 ->
  isDigit sign = false -> (sign =? COLON)%N = false -> (sign =? DOT)%N = false ->
  parseTimeOfDay (pad 2 hh ++ [COLON] ++ pad 2 mi ++ [COLON] ++ pad 2 ss
                    ++ sign :: rest)
  = Some (MakeTime hh mi ss 0, sign :: rest).
Proof.
  intros Hh Hm Hs Sd Sc Sp. unfold parseTimeOfDay, parseSeconds, parseFraction.
  rewrite parseField_pad by lia. cbn [app]. rewrite expect_hit.
  change (pad 2 mi ++ COLON :: pad 2 ss ++ sign :: rest)
    with (pad 2 mi ++ (COLON :: pad 2 ss ++ sign :: rest)).
  rewrite parseField_pad by lia. rewrite expect_hit.
  rewrite parseField_pad by lia.
  cbn [expect]. rewrite Sp.
  destruct (Z.eqb_spec hh 24); [lia|]. reflexivity.
Qed.

End CalendarFacts.


(** ** normalizeDate *)

Module DateFacts.

Import DateTime EventModel HostSpec DateSpec CalendarFacts.
Local Open Scope Z_scope.

Lemma splitHead_app a b :
  forallb notT a = true -> splitHead LETTER_T (a ++ LETTER_T :: b) = a.
Proof.
  unfold splitHead. fold notT. induction a as [|x a IH]; intros F.
  - reflexivity.
  - cbn [forallb] in F. apply andb_true_iff in F. destruct F as [Fx Fa].
    cbn [app takeWhile]. rewrite Fx. now rewrite IH.
Qed.

Lemma pad_notT n v : forallb notT (pad n v) = true.
Proof.
  pose proof (pad_chars n v) as F. rewrite forallb_forall in *.
  intros c Hc. specialize (F c Hc). unfold notT.
  now rewrite (@digit_not c LETTER_T).
Qed.

Lemma dateString_notT t : forallb notT (dateString t) = true.
Proof.
  unfold dateString, yearString. rewrite !forallb_app, !pad_notT.
  destruct ((0 <=? YearFromTime t) && (YearFromTime t <=? 9999)).
  - now rewrite pad_notT.
  - rewrite forallb_app, pad_notT. destruct (YearFromTime t <? 0); reflexivity.
Qed.

Lemma splitHead_toISOString t :
  splitHead LETTER_T (toISOString t) = dateString t.
Proof. unfold toISOString. apply splitHead_app, dateString_notT. Qed.

Lemma normalizeDate_newDate h s :
  normalizeDate h s
  = match newDate h s with
    | Some t => Return (dateString t)
    | None => Throw INVALID_DATE
    end.
Proof.
  unfold normalizeDate. destruct (newDate h s); [|reflexivity].
  now rewrite splitHead_toISOString.
Qed.

Lemma newDate_range h s t : newDate h s = Some t -> Z.abs t <= 8640000000000000.
Proof.
  unfold newDate. destruct (DateParse h s); [|discriminate].
  intros E. apply TimeClip_Some in E. destruct E as [-> E]. exact E.
Qed.

Lemma newDate_dateString h t :
  Z.abs t <= 8640000000000000 ->
  newDate h (dateString t) = Some (MakeDate (Day t) 0).
Proof.
  intros R. unfold newDate, DateParse.
  rewrite parseISO_dateString by (now apply YearFromTime_bound).
  apply TimeClip_Some. split; [reflexivity|].
  unfold MakeDate, Day, msPerDay. Z.div_mod_to_equations. lia.
Qed.

Lemma normalizeDate_fixed h t :
  Z.abs t <= 8640000000000000 ->
  normalizeDate h (dateString t) = Return (dateString t).
Proof.
  intros R. rewrite normalizeDate_newDate, newDate_dateString by exact R.
  f_equal. apply dateString_Day. apply Day_MakeDate. unfold msPerDay. lia.
Qed.

Lemma dateString_isoDate y mo dd t :
  0 <= y <= 9999 -> 1 <= mo <= 12 -> 1 <= dd <= DaysInMonth y mo ->
  Day t = MakeDay y (mo - 1) dd ->
  dateString t = isoDate y mo dd.
Proof.
  intros Hy Hm Hd Ht.
  destruct (@civil_of_MakeDay y mo dd t Hm Hd Ht) as (Y & M & D).
  unfold dateString, yearString, isoDate. rewrite Y, M, D.
  replace (0 <=? y) with true by (symmetry; apply Z.leb_le; lia).
  replace (y <=? 9999) with true by (symmetry; apply Z.leb_le; lia).
  cbn [andb]. now replace (mo - 1 + 1) with mo by lia.
Qed.

Lemma newDate_isoDate h y mo dd :
  0 <= y <= 9999 -> 1 <= mo <= 12 -> 1 <= dd <= 31 ->
  newDate h (isoDate y mo dd) = Some (MakeDate (MakeDay y (mo - 1) dd) 0).
Proof.
  intros Hy Hm Hd. unfold newDate, DateParse, parseISO, isoDate.
  assert (E : pad 4 y = yearString y).
  { unfold yearString.
    replace (0 <=? y) with true by (symmetry; apply Z.leb_le; lia).
    now replace (y <=? 9999) with true by (symmetry; apply Z.leb_le; lia). }
  rewrite E, parseYear_yearString by lia.
  rewrite <- (app_nil_r (pad 2 dd)). rewrite parseMonthDay_fmt by lia.
  apply TimeClip_Some. split; [reflexivity|].
  rewrite MakeDay_in_year by lia.
  assert (0 <= monthStart y (mo - 1) <= 335).
  { unfold monthStart. destruct (DaysInYear y =? 366);
      destruct (months_1_12 Hm) as [M|[M|[M|[M|[M|[M|[M|[M|[M|[M|[M|M]]]]]]]]]]];
      subst mo; cbn; lia. }
  unfold MakeDate, msPerDay, DayFromYear. Z.div_mod_to_equations. lia.
Qed.

Lemma newDate_isoDateTimeOffset h y mo dd hh mi ss east oh om :
  0 <= y <= 9999 -> 1 <= mo <= 12 -> 1 <= dd <= 31 ->
  0 <= hh <= 23 -> 0 <= mi <= 59 -> 0 <= ss <= 59 ->
  0 <= oh <= 23 -> 0 <= om <= 59 ->
  newDate h (isoDateTimeOffset y mo dd hh mi ss east oh om)
  = Some (MakeDate (MakeDay y (mo - 1) dd) (MakeTime hh mi ss 0)
          - offsetMs east oh om).
Proof.
  intros Hy Hm Hd Hh Hmi Hs Ho Hom.
  unfold newDate, DateParse, parseISO, isoDateTimeOffset, isoDate.
  assert (E : pad 4 y = yearString y).
  { unfold yearString.
    replace (0 <=? y) with true by (symmetry; apply Z.leb_le; lia).
    now replace (y <=? 9999) with true by (symmetry; apply Z.leb_le; lia). }
  rewrite E. rewrite <- !app_assoc. rewrite parseYear_yearString by lia.
  rewrite parseMonthDay_fmt by lia.
  cbn [app]. rewrite N.eqb_refl.
  pose proof (@parseTimeOfDay_fmt hh mi ss (signChar east)
                (pad 2 oh ++ [COLON] ++ pad 2 om)) as T.
  cbn [app] in T. rewrite T; try lia; try (destruct east; reflexivity).
  pose proof (@parseOffset_fmt east oh om Ho Hom) as O. cbn [app] in O.
  rewrite O.
  apply TimeClip_Some. split; [reflexivity|].
  rewrite MakeDay_in_year by lia.
  assert (0 <= monthStart y (mo - 1) <= 335).
  { unfold monthStart. destruct (DaysInYear y =? 366);
      destruct (months_1_12 Hm) as [M|[M|[M|[M|[M|[M|[M|[M|[M|[M|[M|M]]]]]]]]]]];
      subst mo; cbn; lia. }
  unfold MakeDate, MakeTime, offsetMs, msPerDay, msPerHour, msPerMinute,
    msPerSecond, DayFromYear.
  destruct east; Z.div_mod_to_equations; lia.
Qed.

(** C1, as amended. [normalizeDate s] fails with the error of an invalid
    date exactly when [new Date(s)] is an Invalid Date.  Otherwise it returns
    the date part of the ISO rendering of the instant [s] denotes, which is
    the calendar day of that instant in UTC: for a date and time with an
    offset, the day written in [s] moved by the offset, and the day written
    when the time less the offset stays within that day. *)
Theorem normalizeDate_utc_day (h : Host) :
  (forall s, normalizeDate h s = Throw INVALID_DATE <-> newDate h s = None)
  /\ (forall s t, newDate h s = Some t ->
        normalizeDate h s = Return (dateString t))
  /\ (forall y mo dd hh mi ss east oh om,
        0 <= y <= 9999 -> 1 <= mo <= 12 -> 1 <= dd <= DaysInMonth y mo ->
        0 <= hh <= 23 -> 0 <= mi <= 59 -> 0 <= ss <= 59 ->
        0 <= oh <= 23 -> 0 <= om <= 59 ->
        let utc := MakeTime hh mi ss 0 - offsetMs east oh om in
        normalizeDate h (isoDateTimeOffset y mo dd hh mi ss east oh om)
        = Return (dateString (MakeDate (MakeDay y (mo - 1) dd) utc))
        /\ (0 <= utc < msPerDay ->
            normalizeDate h (isoDateTimeOffset y mo dd hh mi ss east oh om)
            = Return (isoDate y mo dd))).
Proof.
  split; [|split].
  - intros s. rewrite normalizeDate_newDate.
    destruct (newDate h s); split; (discriminate || reflexivity).
  - intros s t N. now rewrite normalizeDate_newDate, N.
  - intros y mo dd hh mi ss east oh om Hy Hm Hd Hh Hmi Hs Ho Hom utc.
    pose proof (DaysInMonth_le_31 y mo).
    rewrite normalizeDate_newDate, newDate_isoDateTimeOffset by lia.
    replace (MakeDate (MakeDay y (mo - 1) dd) (MakeTime hh mi ss 0)
             - offsetMs east oh om)
      with (MakeDate (MakeDay y (mo - 1) dd) utc)
      by (unfold MakeDate, utc; lia).
    split; [reflexivity|].
    intros U. f_equal. apply dateString_isoDate; try assumption.
    now apply Day_MakeDate.
Qed.

(** C1 as stated fails: half past eleven in the evening of 16 November, five
    hours west of UTC, is normalized to 17 November. *)
Lemma normalizeDate_offset_counterexample :
  splitHead LETTER_T (lit "2025-11-16T23:30:00-05:00") = lit "2025-11-16"
  /\ (forall h, normalizeDate h (lit "2025-11-16T23:30:00-05:00")
                = Return (lit "2025-11-17"))
  /\ lit "2025-11-17" <> lit "2025-11-16".
Proof.
  split; [reflexivity|]. split; [intros h; reflexivity|].
  intros E. discriminate E.
Qed.

(** C7, as amended. A string YYYY-MM-DD that names a day of the calendar
    (year 0000-9999, month 01-12, day 01 to the length of the month) is
    returned unchanged, and whatever [normalizeDate] returns it returns
    unchanged when given it again. *)
Theorem normalizeDate_canonical_fixed (h : Host) :
  (forall y mo dd,
      0 <= y <= 9999 -> 1 <= mo <= 12 -> 1 <= dd <= DaysInMonth y mo ->
      normalizeDate h (isoDate y mo dd) = Return (isoDate y mo dd))
  /\ (forall x s,
         normalizeDate h x = Return s -> normalizeDate h s = Return s).
Proof.
  split.
  - intros y mo dd Hy Hm Hd.
    pose proof (DaysInMonth_le_31 y mo).
    rewrite normalizeDate_newDate, newDate_isoDate by lia.
    f_equal. apply dateString_isoDate; try assumption.
    apply Day_MakeDate. unfold msPerDay. lia.
  - intros x s. rewrite normalizeDate_newDate.
    destruct (newDate h x) as [t|] eqn:N; [|discriminate].
    intros E; inversion E; subst s.
    apply normalizeDate_fixed. eapply newDate_range, N.
Qed.

(** C7 as stated fails: 2025-02-30 has the form YYYY-MM-DD and is accepted,
    and comes back as 2025-03-02. *)
Lemma normalizeDate_rollover :
  lit "2025-02-30" = isoDate 2025 2 30
  /\ (forall h, normalizeDate h (lit "2025-02-30") = Return (isoDate 2025 3 2))
  /\ isoDate 2025 3 2 <> isoDate 2025 2 30.
Proof.
  split; [reflexivity|]. split; [intros h; reflexivity|].
  intros E. discriminate E.
Qed.

(** The amended C1 at two times of 16 November 2025: late in the evening
    west of UTC, and in the morning east of it. *)
Lemma normalizeDate_utc_day_witness :
  normalizeDate plainHost (isoDateTimeOffset 2025 11 16 23 30 0 false 5 0)
  = Return (isoDate 2025 11 17)
  /\ normalizeDate plainHost (isoDateTimeOffset 2025 11 16 9 30 0 true 2 0)
     = Return (isoDate 2025 11 16).
Proof.
  pose proof (proj2 (proj2 (normalizeDate_utc_day plainHost))) as H.
  split.
  - refine (proj1 (H 2025 11 16 23 30 0 false 5 0 _ _ _ _ _ _ _ _));
      vm_compute; split; discriminate.
  - refine (proj2 (H 2025 11 16 9 30 0 true 2 0 _ _ _ _ _ _ _ _) _);
      vm_compute; split; (discriminate || reflexivity).
Defined.

(** The amended C7 at a leap day, and at what [normalizeDate] returns for a
    day of the year 10000. *)
Lemma normalizeDate_canonical_fixed_witness :
  normalizeDate plainHost (isoDate 2024 2 29) = Return (isoDate 2024 2 29)
  /\ normalizeDate plainHost (lit "+010000-01-01")
     = Return (lit "+010000-01-01").
Proof.
  split.
  - refine (proj1 (normalizeDate_canonical_fixed plainHost) 2024 2 29 _ _ _);
      vm_compute; split; discriminate.
  - refine (proj2 (normalizeDate_canonical_fixed plainHost)
             (lit "+010000-01-01T12:00:00Z") _ _).
    vm_compute. reflexivity.
Defined.

End DateFacts.


(** ** The connection cache *)

Module ConnectionFacts.

Import Mongodb ConnectionSpec.

Section Facts.
Variables Mongoose Reason : Type.

Lemma nth_error_update (A : Type) (l : list A) i j (a : A) :
  nth_error (update l i a) j
  = if Nat.eqb i j
    then match nth_error l j with Some _ => Some a | None => None end
    else nth_error l j.
Proof.
  revert i j. induction l as [|b l IH]; intros i j.
  - simpl. destruct (Nat.eqb i j), j; reflexivity.
  - destruct i, j; simpl; try reflexivity. apply IH.
Qed.

Lemma length_update (A : Type) (l : list A) i (a : A) :
  length (update l i a) = length l.
Proof.
  revert i. induction l as [|b l IH]; intros i; [reflexivity|].
  destruct i; simpl; auto.
Qed.

Lemma entering_oneFlight (w : world Mongoose Reason) : entering w -> oneFlight w.
Proof.
  intros (_ & _ & [(_ & P & C) | (_ & P & C)]); split.
  - rewrite P. simpl. lia.
  - intros i c H. now rewrite (C i c H).
  - lia.
  - intros i c H. destruct (C i c H) as [-> | ->]; auto.
Qed.

Lemma entering_step (w w' : world Mongoose Reason) e :
  entering w -> (forall i, e <> Resume i) -> exec w e = Some w' -> entering w'.
Proof.
  intros (U & Cn & St) NR E. destruct e as [i | p s | i]; [| |now destruct (NR i)].
  - (* Enter *)
    cbn [exec] in E. destruct (nth_error (calls w) i) as [[| | |]|] eqn:Ci;
      try discriminate.
    unfold enter in E. rewrite U, Cn in E.
    destruct St as [(P & Ps & C) | (P & Ps & C)]; rewrite P in E;
      inversion E; subst w'; clear E; fields;
      (split; [exact U|]); (split; [reflexivity || exact Cn|]); right.
    + rewrite Ps. repeat split.
      intros j c. rewrite nth_error_update.
      destruct (Nat.eqb i j).
      * destruct (nth_error (calls w) j); intros X; inversion X; auto.
      * intros X. left. eapply C, X.
    + repeat split; auto.
      intros j c. rewrite nth_error_update.
      destruct (Nat.eqb i j).
      * destruct (nth_error (calls w) j); intros X; inversion X; auto.
      * intros X. eapply C, X.
  - (* Settle *)
    cbn [exec] in E.
    destruct (nth_error (promises w) p) as [[| |]|] eqn:Pp; try discriminate.
    destruct St as [(P & Ps & C) | (P & Ps & C)].
    + rewrite Ps in Pp. destruct p; discriminate.
    + destruct s; inversion E; subst w'; clear E; fields;
        (split; [exact U|]); (split; [exact Cn|]); right;
        rewrite length_update; auto.
Qed.

Lemma oneFlight_step (w w' : world Mongoose Reason) e :
  oneFlight w -> isEnter e = false -> exec w e = Some w' -> oneFlight w'.
Proof.
  intros (L & C) NE E. destruct e as [i | p s | i]; [discriminate| |].
  - (* Settle *)
    cbn [exec] in E.
    destruct (nth_error (promises w) p) as [[| |]|] eqn:Pp; try discriminate.
    assert (p = O).
    { assert (p < length (promises w))%nat
        by (apply nth_error_Some; congruence).
      lia. }
    subst p.
    assert (W : promises w' = update (promises w) 0 s /\ calls w' = calls w).
    { destruct s; inversion E; subst w'; auto. }
    destruct W as [Wp Wc]. split.
    + rewrite Wp, length_update. exact L.
    + intros j c. rewrite Wc, Wp, length_update. intros X. specialize (C j c X).
      destruct c as [| q | h | e]; auto.
      * rewrite Pp in C. discriminate.
      * destruct C as (r & _ & C). rewrite Pp in C. discriminate.
  - (* Resume *)
    cbn [exec] in E.
    destruct (nth_error (calls w) i) as [[| p | |]|] eqn:Ci; try discriminate.
    destruct (C _ _ Ci) as [-> L1].
    unfold resume in E.
    destruct (nth_error (promises w) 0) as [[| h | r]|] eqn:P0; try discriminate;
      inversion E; subst w'; clear E; fields; (split; [exact L|]);
      intros j c; rewrite nth_error_update;
      (destruct (Nat.eqb i j);
       [ destruct (nth_error (calls w) j); intros X; inversion X; eauto
       | intros X; specialize (C j c X); rewrite P0; exact C ]).
Qed.

Lemma fresh_entering uri n :
  falsy uri = false -> entering (@fresh Mongoose Reason uri n).
Proof.
  intros U. unfold entering, fresh. fields. repeat split; auto. left.
  repeat split. intros i c H. apply nth_error_In in H.
  now apply repeat_spec in H.
Qed.

Lemma enter_attempt (w w' : world Mongoose Reason) i :
  entering w -> exec w (Enter i) = Some w' -> length (promises w') = 1%nat.
Proof.
  intros (U & Cn & St) E. cbn [exec] in E.
  destruct (nth_error (calls w) i) as [[| | |]|]; try discriminate.
  unfold enter in E. rewrite U, Cn in E.
  destruct St as [(P & Ps & _) | (P & Ps & _)]; rewrite P in E;
    inversion E; subst w'; fields; [now rewrite Ps | exact Ps].
Qed.

Lemma exec_length (w w' : world Mongoose Reason) e :
  exec w e = Some w' -> (length (promises w) <= length (promises w'))%nat.
Proof.
  destruct e as [i | p s | i]; cbn [exec].
  - destruct (nth_error (calls w) i) as [[| | |]|]; try discriminate.
    unfold enter. destruct (falsy _); [|destruct (conn _); [|destruct (promise _)]];
      intros E; inversion E; subst w'; fields; rewrite ?length_app; lia.
  - destruct (nth_error (promises w) p) as [[| |]|]; try discriminate.
    destruct s; intros E; inversion E; subst w'; fields;
      rewrite length_update; lia.
  - destruct (nth_error (calls w) i) as [[| | |]|]; try discriminate.
    destruct (resume w p) as [[c g]|]; try discriminate.
    intros E; inversion E; subst w'; fields; lia.
Qed.

Lemma run_length es : forall (w w' : world Mongoose Reason),
  run w es = Some w' -> (length (promises w) <= length (promises w'))%nat.
Proof.
  induction es as [|e es IH]; intros w w' R; cbn [run] in R.
  - inversion R; subst; lia.
  - destruct (exec w e) as [w1|] eqn:E; [|discriminate].
    apply exec_length in E. apply IH in R. lia.
Qed.

Lemma run_settling es : forall (w w' : world Mongoose Reason),
  oneFlight w -> forallb (fun e => negb (isEnter e)) es = true ->
  run w es = Some w' -> oneFlight w'.
Proof.
  induction es as [|e es IH]; intros w w' O N R; cbn [run] in R.
  - now inversion R; subst.
  - cbn [forallb] in N. apply andb_true_iff in N. destruct N as [Ne Nes].
    destruct (exec w e) as [w1|] eqn:E; [|discriminate].
    apply (IH w1 w'); auto.
    eapply oneFlight_step; [exact O | | exact E]. now apply negb_true_iff.
Qed.

Lemma run_concurrent es : forall (w w' : world Mongoose Reason),
  entering w -> entersFirst es = true -> run w es = Some w' ->
  oneFlight w' /\ ((exists i, In (Enter i) es) -> length (promises w') = 1%nat).
Proof.
  induction es as [|e es IH]; intros w w' En F R.
  - cbn [run] in R. inversion R; subst w'. split.
    + now apply entering_oneFlight.
    + intros [i []].
  - assert (R' := R). cbn [run] in R.
    destruct (exec w e) as [w1|] eqn:E; [|discriminate].
    destruct e as [i | p s | i].
    + (* Enter *)
      assert (En1 : entering w1)
        by (eapply entering_step; [exact En | | exact E];
            intros k X; discriminate X).
      destruct (IH _ _ En1 F R) as [O L]. split; [exact O|].
      intros _. assert (A : length (promises w1) = 1%nat)
        by (eapply enter_attempt; [exact En | exact E]).
      apply run_length in R. destruct O as [O _]. lia.
    + (* Settle *)
      assert (En1 : entering w1)
        by (eapply entering_step; [exact En | | exact E];
            intros k X; discriminate X).
      destruct (IH _ _ En1 F R) as [O L]. split; [exact O|].
      intros [i [X|X]]; [discriminate | eauto].
    + (* Resume *)
      cbn [entersFirst] in F.
      assert (O : oneFlight w').
      { apply (@run_settling (Resume i :: es) w w');
          [now apply entering_oneFlight | now cbn [forallb isEnter negb andb] | exact R']. }
      split; [exact O|].
      intros [j [X|X]]; [discriminate|].
      rewrite forallb_forall in F. apply F in X. discriminate.
Qed.

End Facts.

Section Claims.
Variables Mongoose Reason : Type.

(** C2, as amended. When MONGODB_URI is set and a handle is cached, the call
    returns that handle at once, without a connection attempt and without a
    change of the cache; when MONGODB_URI is not set (or empty), the call
    fails with the error that asks to define it, a handle cached or not. *)
Theorem enter_cached_or_unconfigured (w : world Mongoose Reason) :
  (falsy (MONGODB_URI w) = false ->
   forall handle, conn (cached w) = Some handle ->
     enter w = (Returned handle, cached w, promises w))
  /\ (falsy (MONGODB_URI w) = true ->
      enter w = (Threw (Error CONFIG_MESSAGE), cached w, promises w)).
Proof.
  unfold enter. split.
  - intros U handle C. now rewrite U, C.
  - intros U. now rewrite U.
Qed.


(** X18. Let any number of callers call before any of them continues, in a
    process that has not connected, in any order and with the attempt
    settled at any moment.  Then at most one connection attempt was made,
    exactly one if somebody called; every caller that has returned has the
    handle that attempt was fulfilled with, so all have the same; every
    caller that has failed has the reason it was rejected with; and a caller
    still suspended on the fulfilled attempt continues and returns its
    handle. *)
Theorem concurrent_callers_single_flight uri n es (w : world Mongoose Reason) :
  falsy uri = false ->
  entersFirst es = true ->
  run (fresh uri n) es = Some w ->
  (length (promises w) <= 1)%nat
  /\ ((exists i, In (Enter i) es) -> length (promises w) = 1%nat)
  /\ (forall i handle,
        nth_error (calls w) i = Some (Returned handle) ->
        nth_error (promises w) 0 = Some (Fulfilled handle))
  /\ (forall i j h1 h2,
        nth_error (calls w) i = Some (Returned h1) ->
        nth_error (calls w) j = Some (Returned h2) -> h1 = h2)
  /\ (forall i e,
        nth_error (calls w) i = Some (Threw e) ->
        exists reason, e = ConnectError reason
                       /\ nth_error (promises w) 0 = Some (Rejected reason))
  /\ (forall i p handle,
        nth_error (calls w) i = Some (Awaiting p) ->
        nth_error (promises w) p = Some (Fulfilled handle) ->
        exists w', exec w (Resume i) = Some w'
                   /\ nth_error (calls w') i = Some (Returned handle)).
Proof.
  intros U F R.
  destruct (@run_concurrent Mongoose Reason es (fresh uri n) w
              (@fresh_entering Mongoose Reason uri n U) F R)
    as [[L C] A].
  split; [exact L|]. split; [exact A|].
  split; [intros i handle H; exact (C _ _ H)|].
  split.
  - intros i j h1 h2 H1 H2. apply C in H1, H2. congruence.
  - split; [intros i e H; exact (C _ _ H)|].
    intros i p handle Ci Pp. cbn [exec]. rewrite Ci. unfold resume. rewrite Pp.
    eexists. split; [reflexivity|]. cbn [calls].
    now rewrite nth_error_update, Nat.eqb_refl, Ci.
Qed.

End Claims.
(** C2 as stated fails: with a handle cached and MONGODB_URI not set, the
    call fails. *)
Lemma cached_handle_without_uri :
  conn (cached unconfiguredWorld) = Some 7%nat
  /\ enter unconfiguredWorld
     = (Threw (Error CONFIG_MESSAGE), cached unconfiguredWorld,
        promises unconfiguredWorld).
Proof. split; reflexivity. Qed.


(** X18 at two callers: both call, the attempt succeeds, the second and
    then the first continue. *)
Lemma concurrent_callers_witness :
  (length (promises connectedWorld) <= 1)%nat
  /\ ((exists i, In (Enter i) twoCallers) ->
      length (promises connectedWorld) = 1%nat)
  /\ (forall i handle,
        nth_error (calls connectedWorld) i = Some (Returned handle) ->
        nth_error (promises connectedWorld) 0 = Some (Fulfilled handle))
  /\ (forall i j h1 h2,
        nth_error (calls connectedWorld) i = Some (Returned h1) ->
        nth_error (calls connectedWorld) j = Some (Returned h2) -> h1 = h2)
  /\ (forall i e,
        nth_error (calls connectedWorld) i = Some (Threw e) ->
        exists reason, e = ConnectError reason
          /\ nth_error (promises connectedWorld) 0 = Some (Rejected reason))
  /\ (forall i p handle,
        nth_error (calls connectedWorld) i = Some (Awaiting p) ->
        nth_error (promises connectedWorld) p = Some (Fulfilled handle) ->
        exists w', exec connectedWorld (Resume i) = Some w'
                   /\ nth_error (calls w') i = Some (Returned handle)).
Proof.
  exact (@concurrent_callers_single_flight nat unit sampleUri 2 twoCallers
           connectedWorld eq_refl eq_refl eq_refl).
Defined.

(** C9 fails on the code.  Four callers call while no handle is cached, in
    the order of [raceCalls]: the second awaits the first attempt when it
    has failed already, and clears the cached promise when it continues,
    although that promise is by then the attempt the third caller has
    started.  The fourth caller therefore starts an attempt of its own
    while the third caller's is pending: the third and the fourth caller
    are suspended together, no handle cached, on two attempts.  Both
    attempts succeed, and the two callers return different handles; three
    connection attempts were made in all. *)
Lemma stale_failure_breaks_single_flight :
  run (fresh sampleUri 4) raceCalls = Some inFlightWorld
  /\ conn (cached inFlightWorld) = None
  /\ nth_error (calls inFlightWorld) 2 = Some (Awaiting 1)
  /\ nth_error (calls inFlightWorld) 3 = Some (Awaiting 2)
  /\ nth_error (promises inFlightWorld) 1 = Some Pending
  /\ nth_error (promises inFlightWorld) 2 = Some Pending
  /\ run inFlightWorld raceSettlements = Some raceWorld
  /\ length (promises raceWorld) = 3%nat
  /\ nth_error (calls raceWorld) 2 = Some (Returned 7%nat)
  /\ nth_error (calls raceWorld) 3 = Some (Returned 8%nat)
  /\ 7%nat <> 8%nat.
Proof.
  repeat (split; [reflexivity|]). discriminate.
Qed.

End ConnectionFacts.

(** ** Slugs *)

Module SlugFormFacts.

Import EventModel MatcherSpec HostSpec SlugSpec SlugForm RegExpFacts SlugFacts.

Lemma dropWhile_keep p (a : char) (s : jstring) :
  p a = false -> dropWhile p (a :: s) = a :: s.
Proof. intros H. simpl. now rewrite H. Qed.

Lemma dropWhile_all p (s : jstring) :
  dropWhile p s = [] <-> forallb p s = true.
Proof.
  induction s as [|a s IH]; simpl; [tauto|].
  destruct (p a); simpl; [exact IH|]. split; discriminate.
Qed.

Lemma dropWhileEnd_all p (s : jstring) :
  dropWhileEnd p s = [] <-> forallb p s = true.
Proof.
  unfold dropWhileEnd. rewrite <- (forallb_rev p s), <- dropWhile_all.
  split; intros H.
  - apply (f_equal (@rev char)) in H. now rewrite rev_involutive in H.
  - now rewrite H.
Qed.

Lemma forallb_dropWhile_same p (s : jstring) :
  forallb p (dropWhile p s) = forallb p s.
Proof.
  induction s as [|a s IH]; [reflexivity|]. simpl.
  destruct (p a) eqn:Pa; simpl; [exact IH | now rewrite Pa].
Qed.

Lemma trim_blank s : trim s = [] <-> forallb isWhiteSpace s = true.
Proof.
  unfold trim. now rewrite dropWhileEnd_all, forallb_dropWhile_same.
Qed.

Lemma dropWhile_none p (s : jstring) :
  forallb (fun c => negb (p c)) s = true -> dropWhile p s = s.
Proof.
  destruct s as [|a s]; [reflexivity|]. simpl. intros H.
  apply andb_true_iff in H. destruct H as [H _].
  apply negb_true_iff in H. now rewrite H.
Qed.

Lemma dropWhileEnd_none p (s : jstring) :
  forallb (fun c => negb (p c)) s = true -> dropWhileEnd p s = s.
Proof.
  intros H. unfold dropWhileEnd. rewrite dropWhile_none.
  - apply rev_involutive.
  - now rewrite forallb_rev.
Qed.

Lemma trim_none s :
  forallb (fun c => negb (isWhiteSpace c)) s = true -> trim s = s.
Proof.
  intros H. unfold trim. rewrite (dropWhile_none _ _ H).
  now apply dropWhileEnd_none.
Qed.

Lemma generateSlug_isSlug h title : isSlug (generateSlug h title) = true.
Proof.
  unfold isSlug. rewrite generateSlug_runs.
  rewrite stripHyphens_starts, stripHyphens_ends.
  rewrite stripHyphens_noDouble by apply replaceRuns_noDouble.
  unfold stripHyphens.
  rewrite forallb_dropWhileEnd; [reflexivity|].
  apply forallb_dropWhile, replaceRuns_chars.
Qed.

Lemma slugChar_cases c :
  slugChar c = true -> notSlugChar c = false \/ c = HYPHEN.
Proof.
  unfold slugChar, notSlugChar, inClass, isLowerAZ, isDigit, isHyphen.
  cbn [existsb inAtom]. rewrite orb_false_r.
  destruct (between 97 122 c || between 48 57 c)%N eqn:E.
  - intros _. now left.
  - cbn [orb negb]. intros H. right. symmetry. now apply N.eqb_eq.
Qed.

Lemma between_range lo hi c : between lo hi c = true -> (lo <= c <= hi)%N.
Proof.
  unfold between. rewrite andb_true_iff, !N.leb_le. tauto.
Qed.

Lemma slugChar_range c :
  slugChar c = true ->
  (97 <= c <= 122)%N \/ (48 <= c <= 57)%N \/ c = 45%N.
Proof.
  unfold slugChar, isLowerAZ, isDigit, isHyphen. intros H.
  apply orb_true_iff in H. destruct H as [H|H].
  - apply orb_true_iff in H. destruct H as [H|H];
      apply between_range in H; auto.
  - apply N.eqb_eq in H. auto.
Qed.

Lemma slugChar_plain c :
  slugChar c = true ->
  (c <? 128)%N = true /\ isUpperAZ c = false /\ isWhiteSpace c = false.
Proof.
  intros H. apply slugChar_range in H.
  assert (R : (45 <= c <= 122)%N /\ (c < 65 \/ 90 < c)%N) by lia. clear H.
  split; [apply N.ltb_lt; lia|]. split.
  - unfold isUpperAZ, between. apply andb_false_iff.
    destruct R as [_ [R|R]]; [left | right]; apply N.leb_gt; lia.
  - unfold isWhiteSpace, between.
    repeat (apply orb_false_iff; split);
      try (apply N.eqb_neq; lia);
      apply andb_false_iff; (left; apply N.leb_gt; lia) || (right; apply N.leb_gt; lia).
Qed.

Lemma lowerFrom_slug h s : forall before,
  forallb slugChar s = true -> lowerFrom h before s = s.
Proof.
  induction s as [|c s IH]; intros bef F; [reflexivity|].
  cbn [forallb] in F. apply andb_true_iff in F. destruct F as [Fc Fs].
  destruct (slugChar_plain _ Fc) as (A & U & _).
  cbn [lowerFrom]. rewrite A, (IH _ Fs). unfold lowerAscii. now rewrite U.
Qed.

Lemma replaceRuns_slug (s : jstring) :
  forallb slugChar s = true -> noDoubleHyphen s = true ->
  replaceRuns notSlugChar (lit "-") s = s.
Proof.
  induction s as [|a s IH]; intros F D; [reflexivity|].
  cbn [forallb] in F. apply andb_true_iff in F. destruct F as [Fa Fs].
  specialize (IH Fs (noDoubleHyphen_tail _ _ D)).
  destruct (slugChar_cases _ Fa) as [Na | ->].
  - now rewrite replaceRuns_miss, IH.
  - destruct s as [|b s]; [reflexivity|].
    rewrite replaceRuns_cons2, IH.
    cbn [noDoubleHyphen] in D. apply andb_true_iff in D. destruct D as [D _].
    assert (Hb : isHyphen b = false) by (destruct (isHyphen b); [discriminate D | reflexivity]).
    cbn [forallb] in Fs. apply andb_true_iff in Fs. destruct Fs as [Fb _].
    destruct (slugChar_cases _ Fb) as [Nb | ->]; [|discriminate Hb].
    rewrite Nb. reflexivity.
Qed.

Lemma stripHyphens_slug (s : jstring) :
  startsWithHyphen s = false -> endsWithHyphen s = false -> stripHyphens s = s.
Proof.
  unfold stripHyphens, endsWithHyphen, dropWhileEnd. intros S E.
  assert (K : forall l : jstring, startsWithHyphen l = false ->
                dropWhile isHyphen l = l).
  { intros [|a l] H; [reflexivity|]. simpl in *. now rewrite H. }
  rewrite (K s S), (K _ E). apply rev_involutive.
Qed.

Lemma isSlug_fixed h s : isSlug s = true -> generateSlug h s = s.
Proof.
  unfold isSlug. intros H.
  apply andb_true_iff in H. destruct H as [H D].
  apply andb_true_iff in H. destruct H as [H E].
  apply andb_true_iff in H. destruct H as [F S].
  apply negb_true_iff in S, E.
  rewrite generateSlug_runs. unfold toLowerCase.
  rewrite lowerFrom_slug by exact F.
  rewrite trim_none.
  - rewrite replaceRuns_slug by assumption. now apply stripHyphens_slug.
  - rewrite forallb_forall in *. intros c Hc.
    destruct (slugChar_plain _ (F c Hc)) as (_ & _ & W). now rewrite W.
Qed.

(** X1. The strings [generateSlug] returns unchanged are exactly the
    well-formed slugs (lower-case ASCII letters, digits and single hyphens
    between them); so the slug of a slug is that slug, and [generateSlug]
    is idempotent, whatever the case tables of the host. *)
Theorem generateSlug_fixed_points h :
  (forall s, generateSlug h s = s <-> isSlug s = true)
  /\ (forall title,
        generateSlug h (generateSlug h title) = generateSlug h title).
Proof.
  split.
  - intros s. split; [|apply isSlug_fixed].
    intros E. rewrite <- E. apply generateSlug_isSlug.
  - intros title. apply isSlug_fixed, generateSlug_isSlug.
Qed.

Lemma filter_dropWhile (q p : char -> bool) (s : jstring) :
  (forall c, p c = true -> q c = false) ->
  filter q (dropWhile p s) = filter q s.
Proof.
  intros H. induction s as [|a s IH]; [reflexivity|]. simpl.
  destruct (p a) eqn:Pa; [|reflexivity]. now rewrite (H a Pa).
Qed.

Lemma filter_dropWhileEnd (q p : char -> bool) (s : jstring) :
  (forall c, p c = true -> q c = false) ->
  filter q (dropWhileEnd p s) = filter q s.
Proof.
  intros H. unfold dropWhileEnd.
  rewrite filter_rev, filter_dropWhile by exact H.
  now rewrite filter_rev, rev_involutive.
Qed.

Lemma whitespace_not_class c : isWhiteSpace c = true -> isSlugClass c = false.
Proof.
  intros W. unfold isSlugClass. destruct (notSlugChar c) eqn:N; [reflexivity|].
  destruct (slugChar_plain _ (slug_char_of_class _ N)) as (_ & _ & W').
  congruence.
Qed.

Lemma hyphen_not_class c : isHyphen c = true -> isSlugClass c = false.
Proof.
  intros H. unfold isSlugClass. destruct (notSlugChar c) eqn:N; [reflexivity|].
  rewrite (slug_char_not_hyphen _ N) in H. discriminate.
Qed.

Lemma lettersAndDigits_runs (s : jstring) :
  lettersAndDigits (replaceRuns notSlugChar (lit "-") s) = lettersAndDigits s.
Proof.
  unfold lettersAndDigits.
  pattern s, (replaceRuns notSlugChar (lit "-") s). apply replaceRuns_rect.
  - reflexivity.
  - intros a rest Pa IH.
    change (lit "-" ++ replaceRuns notSlugChar (lit "-") (dropWhile notSlugChar rest))
      with (HYPHEN :: replaceRuns notSlugChar (lit "-") (dropWhile notSlugChar rest)).
    assert (Qa : isSlugClass a = false) by (unfold isSlugClass; now rewrite Pa).
    cbn [filter]. rewrite (hyphen_not_class HYPHEN eq_refl), IH, Qa.
    apply filter_dropWhile. intros c Hc. unfold isSlugClass. now rewrite Hc.
  - intros a rest Pa IH. cbn [filter]. now rewrite IH.
Qed.

Lemma lettersAndDigits_strip (s : jstring) :
  lettersAndDigits (stripHyphens s) = lettersAndDigits s.
Proof.
  unfold lettersAndDigits, stripHyphens.
  rewrite filter_dropWhileEnd, filter_dropWhile; auto using hyphen_not_class.
Qed.

Lemma lettersAndDigits_trim (s : jstring) :
  lettersAndDigits (trim s) = lettersAndDigits s.
Proof.
  unfold lettersAndDigits, trim.
  rewrite filter_dropWhileEnd, filter_dropWhile; auto using whitespace_not_class.
Qed.

(** X2. The slug keeps the ASCII lower-case letters and digits of the
    lower-cased title, all of them and in their order: what is dropped or
    replaced by a hyphen is never one of them. *)
Theorem generateSlug_letters_and_digits h title :
  lettersAndDigits (generateSlug h title)
  = lettersAndDigits (toLowerCase h title).
Proof.
  rewrite generateSlug_runs.
  rewrite lettersAndDigits_strip, lettersAndDigits_runs.
  apply lettersAndDigits_trim.
Qed.

(** X3. The slug is empty exactly when the lower-cased title holds no
    ASCII letter and no digit. *)
Theorem generateSlug_empty_iff h title :
  generateSlug h title = [] <-> lettersAndDigits (toLowerCase h title) = [].
Proof.
  assert (E : lettersAndDigits (generateSlug h title)
              = lettersAndDigits (toLowerCase h title)).
  { rewrite generateSlug_runs.
    now rewrite lettersAndDigits_strip, lettersAndDigits_runs, lettersAndDigits_trim. }
  rewrite <- E. split; [intros ->; reflexivity|].
  pose proof (generateSlug_isSlug h title) as S. unfold isSlug in S.
  apply andb_true_iff in S. destruct S as [S _].
  apply andb_true_iff in S. destruct S as [S _].
  apply andb_true_iff in S. destruct S as [F St].
  apply negb_true_iff in St.
  destruct (generateSlug h title) as [|c g]; [reflexivity|].
  cbn [forallb] in F. apply andb_true_iff in F. destruct F as [Fc _].
  unfold lettersAndDigits. cbn [filter].
  destruct (slugChar_cases _ Fc) as [N | ->].
  - unfold isSlugClass at 1. rewrite N. discriminate.
  - discriminate St.
Qed.

Lemma lowerFrom_ascii h s : forall before,
  isAscii s = true -> lowerFrom h before s = map lowerAscii s.
Proof.
  induction s as [|c s IH]; intros before A; [reflexivity|].
  cbn [isAscii forallb] in A. apply andb_true_iff in A. destruct A as [Ac As].
  cbn [lowerFrom map]. rewrite Ac. cbn [app]. f_equal. now apply IH.
Qed.

(** X4. Two ASCII titles that differ only in the case of their letters have
    the same slug, on every host. *)
Theorem generateSlug_ascii_case h1 h2 t1 t2 :
  isAscii t1 = true -> isAscii t2 = true ->
  map lowerAscii t1 = map lowerAscii t2 ->
  generateSlug h1 t1 = generateSlug h2 t2.
Proof.
  intros A1 A2 E. rewrite !generateSlug_runs. unfold toLowerCase.
  rewrite (lowerFrom_ascii h1 t1 [] A1), (lowerFrom_ascii h2 t2 [] A2).
  now rewrite E.
Qed.

(** X4 at two spellings of one title. *)
Lemma generateSlug_ascii_case_witness :
  generateSlug plainHost (lit "Rocq Meetup") = generateSlug plainHost (lit "ROCQ meetup").
Proof.
  exact (@generateSlug_ascii_case plainHost plainHost (lit "Rocq Meetup")
           (lit "ROCQ meetup") eq_refl eq_refl eq_refl).
Defined.

End SlugFormFacts.

(** ** Normalized times *)

Module TimeResultFacts.

Import DateTime EventModel MatcherSpec TimeSpec RegExpFacts TimeFacts
  SlugFormFacts.
Local Open Scope N_scope.

Lemma not_white_48_58 c : 48 <= c <= 58 -> isWhiteSpace c = false.
Proof.
  intros R. unfold isWhiteSpace, between.
  repeat (apply orb_false_iff; split);
    try (apply N.eqb_neq; lia);
    apply andb_false_iff; (left; apply N.leb_gt; lia) || (right; apply N.leb_gt; lia).
Qed.

Lemma hourOK_range h1 h2 :
  hourOK h1 h2 = true -> 48 <= h1 <= 58 /\ 48 <= h2 <= 58.
Proof.
  unfold hourOK, isDigit. intros H. apply orb_true_iff in H.
  destruct H as [H|H]; apply andb_true_iff in H; destruct H as [A B].
  - apply between_true in A, B. lia.
  - apply N.eqb_eq in A. apply between_true in B. lia.
Qed.

Lemma minuteOK_range m1 m2 :
  minuteOK m1 m2 = true -> 48 <= m1 <= 58 /\ 48 <= m2 <= 58.
Proof.
  unfold minuteOK, isDigit. intros H.
  apply andb_true_iff in H; destruct H as [A B].
  apply between_true in A, B. lia.
Qed.

Lemma timeShape_result s r :
  timeShape s = Some r ->
  length r = 5%nat /\ trim r = r /\ timeShape r = Some r.
Proof.
  assert (K : forall h1 h2 m1 m2,
             hourOK h1 h2 = true -> minuteOK m1 m2 = true ->
             length [h1; h2; COLON; m1; m2] = 5%nat
             /\ trim [h1; h2; COLON; m1; m2] = [h1; h2; COLON; m1; m2]
             /\ timeShape [h1; h2; COLON; m1; m2] = Some [h1; h2; COLON; m1; m2]).
  { intros h1 h2 m1 m2 Hh Hm. split; [reflexivity|]. split.
    - apply trim_none.
      destruct (hourOK_range _ _ Hh), (minuteOK_range _ _ Hm).
      cbn [forallb]. rewrite !not_white_48_58 by (unfold COLON; lia).
      reflexivity.
    - cbn [timeShape]. rewrite Hh, Hm. reflexivity. }
  destruct s as [|h1 [|h2 [|c1 [|m1 [|m2 [|c2 [|s1 [|s2 [|x rest]]]]]]]]];
    try discriminate; cbn [timeShape].
  - destruct (hourOK h1 h2) eqn:Hh; [|discriminate].
    destruct (isColon c1); [|discriminate].
    destruct (minuteOK m1 m2) eqn:Hm; [|discriminate].
    cbn [andb]. intros E; inversion E; subst r. now apply K.
  - destruct (hourOK h1 h2) eqn:Hh; [|discriminate].
    destruct (isColon c1); [|discriminate].
    destruct (minuteOK m1 m2) eqn:Hm; [|discriminate].
    destruct (isColon c2); [|discriminate].
    destruct (minuteOK s1 s2); [|discriminate].
    cbn [andb]. intros E; inversion E; subst r. now apply K.
Qed.

Lemma normalizeTime_again t r :
  normalizeTime t = Return r -> normalizeTime r = Return r.
Proof.
  rewrite !normalizeTime_shape.
  destruct (timeShape (trim t)) as [r'|] eqn:S; [|discriminate].
  intros E; inversion E; subst r'.
  destruct (timeShape_result _ S) as (_ & T & S').
  now rewrite T, S'.
Qed.

(** X5. What [normalizeTime] returns has five code units and is returned
    unchanged when it is normalized again. *)
Theorem normalizeTime_idempotent t r :
  normalizeTime t = Return r ->
  normalizeTime r = Return r /\ length r = 5%nat.
Proof.
  rewrite !normalizeTime_shape.
  destruct (timeShape (trim t)) as [r'|] eqn:S; [|discriminate].
  intros E; inversion E; subst r'.
  destruct (timeShape_result _ S) as (L & T & S').
  now rewrite T, S'.
Qed.


(** X5 at a time with seconds and white space around it. *)
Lemma normalizeTime_idempotent_witness :
  normalizeTime (lit "09:05") = Return (lit "09:05")
  /\ length (lit "09:05") = 5%nat.
Proof.
  exact (@normalizeTime_idempotent (lit " 09:05:30 ") (lit "09:05") eq_refl).
Defined.

End TimeResultFacts.

(** ** Normalized dates *)

Module CalendarDayFacts.

Import DateTime EventModel HostSpec DateSpec CalendarFacts DateFacts.
Local Open Scope Z_scope.

Lemma DateFromTime_in_month t :
  1 <= DateFromTime t <= DaysInMonth (YearFromTime t) (MonthFromTime t + 1).
Proof.
  pose proof (DayWithinYear_range t) as R.
  pose proof (DaysInYear_cases (YearFromTime t)) as C.
  unfold DaysInMonth, DateFromTime, MonthFromTime, InLeapYear in *.
  set (d := DayWithinYear t) in *.
  destruct (Z.eqb_spec (DaysInYear (YearFromTime t)) 366) as [L|L].
  all: repeat match goal with
       | |- context [if ?a <? ?b then _ else _] =>
           destruct (Z.ltb_spec a b)
       end.
  all: cbv iota beta; cbn [Z.add Pos.add Pos.succ]; cbv iota; lia.
Qed.

Lemma YearFromTime_era t :
  Z.abs t <= 8640000000000000 -> -271821 <= YearFromTime t <= 275760.
Proof.
  intros H. unfold YearFromTime.
  pose proof (YearFromDay_spec (Day t)) as S.
  assert (B : -100000000 <= Day t <= 100000000)
    by (unfold Day, msPerDay; Z.div_mod_to_equations; lia).
  unfold DayFromYear in S.
  Z.div_mod_to_equations. lia.
Qed.

Lemma yearString_length y : length (yearString y) = 4%nat \/ length (yearString y) = 7%nat.
Proof.
  unfold yearString. destruct ((0 <=? y) && (y <=? 9999)).
  - left. apply pad_length.
  - right. rewrite length_app, pad_length. now destruct (y <? 0).
Qed.

(** X6. What [normalizeDate] returns always names a day of the calendar:
    a year within the range of [Date], a month 01-12 and a day from 01 to
    the length of that month, written YYYY-MM-DD for the years 0000-9999
    (ten code units) and with a sign and six digits of year otherwise
    (thirteen). *)
Theorem normalizeDate_real_day h s r :
  normalizeDate h s = Return r ->
  exists y mo dd,
    -271821 <= y <= 275760 /\ 1 <= mo <= 12 /\ 1 <= dd <= DaysInMonth y mo
    /\ r = yearString y ++ [HYPHEN] ++ pad 2 mo ++ [HYPHEN] ++ pad 2 dd
    /\ (0 <= y <= 9999 -> r = isoDate y mo dd)
    /\ (length r = 10%nat \/ length r = 13%nat).
Proof.
  rewrite normalizeDate_newDate.
  destruct (newDate h s) as [t|] eqn:N; [|discriminate].
  intros E; inversion E; subst r; clear E.
  exists (YearFromTime t), (MonthFromTime t + 1), (DateFromTime t).
  pose proof (MonthFromTime_range t).
  split; [apply YearFromTime_era; eapply newDate_range; eassumption|].
  split; [lia|]. split; [apply DateFromTime_in_month|].
  split; [reflexivity|]. split.
  - intros Y. unfold dateString, isoDate, yearString.
    replace (0 <=? YearFromTime t) with true by (symmetry; apply Z.leb_le; lia).
    now replace (YearFromTime t <=? 9999) with true by (symmetry; apply Z.leb_le; lia).
  - unfold dateString. rewrite !length_app, !pad_length. cbn [length].
    destruct (yearString_length (YearFromTime t)) as [L|L]; rewrite L; auto.
Qed.

(** X6 at the thirtieth of February. *)
Lemma normalizeDate_real_day_witness :
  exists y mo dd,
    -271821 <= y <= 275760 /\ 1 <= mo <= 12 /\ 1 <= dd <= DaysInMonth y mo
    /\ lit "2025-03-02"
       = yearString y ++ [HYPHEN] ++ pad 2 mo ++ [HYPHEN] ++ pad 2 dd
    /\ (0 <= y <= 9999 -> lit "2025-03-02" = isoDate y mo dd)
    /\ (length (lit "2025-03-02") = 10%nat \/ length (lit "2025-03-02") = 13%nat).
Proof.
  exact (@normalizeDate_real_day plainHost (lit "2025-02-30") (lit "2025-03-02") eq_refl).
Defined.

Lemma MakeDay_next_month y mo dd :
  1 <= mo <= 11 ->
  MakeDay y (mo - 1) dd = MakeDay y mo (dd - DaysInMonth y mo).
Proof.
  intros Hm. rewrite !MakeDay_in_year by lia.
  unfold monthStart, DaysInMonth.
  assert (C : mo = 1 \/ mo = 2 \/ mo = 3 \/ mo = 4 \/ mo = 5 \/ mo = 6 \/ mo = 7
              \/ mo = 8 \/ mo = 9 \/ mo = 10 \/ mo = 11) by lia.
  destruct (DaysInYear y =? 366);
    destruct C as [E|[E|[E|[E|[E|[E|[E|[E|[E|[E|E]]]]]]]]]];
    subst mo; cbn; lia.
Qed.

Lemma DaysInMonth_ge_28 y mo : 1 <= mo <= 12 -> 28 <= DaysInMonth y mo.
Proof.
  intros Hm. unfold DaysInMonth.
  destruct (DaysInYear y =? 366);
    destruct (months_1_12 Hm) as [E|[E|[E|[E|[E|[E|[E|[E|[E|[E|[E|E]]]]]]]]]]];
    subst mo; cbn; lia.
Qed.

Lemma DaysInMonth_december y : DaysInMonth y 12 = 31.
Proof. reflexivity. Qed.

(** X7. A date YYYY-MM-DD whose day is at most 31 but beyond the end of its
    month is accepted and moved into the next month: the result is the day
    number less the length of the written month, in the month after it. *)
Theorem normalizeDate_overflow_day h y mo dd :
  0 <= y <= 9999 -> 1 <= mo <= 12 -> DaysInMonth y mo < dd <= 31 ->
  normalizeDate h (isoDate y mo dd)
  = Return (isoDate y (mo + 1) (dd - DaysInMonth y mo)).
Proof.
  intros Hy Hm Hd.
  assert (Hm' : 1 <= mo <= 11).
  { destruct (Z.eq_dec mo 12) as [->|]; [rewrite DaysInMonth_december in Hd|]; lia. }
  pose proof (DaysInMonth_ge_28 y Hm).
  rewrite normalizeDate_newDate, newDate_isoDate by lia.
  f_equal. apply dateString_isoDate; [lia | lia | |].
  - assert (28 <= DaysInMonth y (mo + 1)) by (apply DaysInMonth_ge_28; lia).
    lia.
  - rewrite Day_MakeDate by (unfold msPerDay; lia).
    replace (mo + 1 - 1) with mo by lia. now apply MakeDay_next_month.
Qed.

(** X7 at the thirty-first of February of a leap year. *)
Lemma normalizeDate_overflow_day_witness :
  normalizeDate plainHost (isoDate 2024 2 31)
  = Return (isoDate 2024 (2 + 1) (31 - DaysInMonth 2024 2)).
Proof.
  refine (@normalizeDate_overflow_day plainHost 2024 2 31 _ _ _);
    vm_compute; split; (reflexivity || discriminate).
Defined.

End CalendarDayFacts.

(** ** The pre-save hook of an event *)

Module HookFacts.

Import DateTime EventModel HostSpec SlugSpec SlugForm TimeSpec DateSpec HookSpec
  TimeFacts DateFacts SlugFormFacts TimeResultFacts.

Lemma isMissing_blank v : isMissing v = true <-> blank v.
Proof.
  destruct v as [|s]; cbn [isMissing blank]; [tauto|].
  rewrite <- trim_blank, Nat.eqb_eq. now destruct (trim s).
Qed.

Lemma not_missing_blank v : isMissing v = false <-> ~ blank v.
Proof.
  rewrite <- isMissing_blank. now destruct (isMissing v).
Qed.

Lemma checkRequired_spec event fields :
  match checkRequired event fields with
  | None =>
      Forall (fun f : string * (EventDocument -> value) =>
                ~ blank (snd f event)) fields
  | Some err =>
      exists pre name get post,
        fields = pre ++ (name, get) :: post
        /\ Forall (fun f : string * (EventDocument -> value) =>
                     ~ blank (snd f event)) pre
        /\ blank (get event)
        /\ err = fieldError name
  end.
Proof.
  induction fields as [|[name get] rest IH]; cbn [checkRequired].
  - constructor.
  - destruct (isMissing (get event)) eqn:M.
    + exists [], name, get, rest. repeat split; [constructor|].
      now apply isMissing_blank.
    + apply not_missing_blank in M.
      destruct (checkRequired event rest) as [err|].
      * destruct IH as (pre & n & g & post & E & F & B & Er).
        exists ((name, get) :: pre), n, g, post. rewrite E.
        repeat split; auto.
      * constructor; auto.
Qed.

Lemma checkRequired_present event :
  checkRequired event requiredStringFields = None <-> present event.
Proof.
  pose proof (checkRequired_spec event requiredStringFields) as S.
  unfold present. split.
  - intros E. now rewrite E in S.
  - intros P. destruct (checkRequired event requiredStringFields); [|reflexivity].
    destruct S as (pre & n & g & post & E & F & B & Er).
    rewrite E in P. apply Forall_app in P. destruct P as [_ P].
    inversion P; subst. now destruct H1.
Qed.

Lemma present_fields event :
  present event
  <-> ~ blank (title event) /\ ~ blank (description event)
      /\ ~ blank (overview event) /\ ~ blank (image event)
      /\ ~ blank (venue event) /\ ~ blank (location event)
      /\ ~ blank (mode event) /\ ~ blank (audience event)
      /\ ~ blank (organizer event).
Proof.
  unfold present, requiredStringFields.
  rewrite !Forall_cons_iff, Forall_nil_iff. cbn [snd]. tauto.
Qed.



Lemma normalizeDate_again h s r :
  normalizeDate h s = Return r -> normalizeDate h r = Return r.
Proof.
  rewrite normalizeDate_newDate.
  destruct (newDate h s) as [t|] eqn:N; [|discriminate].
  intros E; inversion E; subst r.
  apply normalizeDate_fixed. eapply newDate_range; eassumption.
Qed.

(** X9. When the pre-save hook of an event succeeds, every required text
    field holds text, the date and the time stored are the normalized
    ones, the slug is the one generated from the title when the title was
    modified (a well-formed slug) and the one the event had otherwise, and
    no other field has changed. *)
Theorem pre_save_success h titleModified event saved :
  pre_save h titleModified event = Return saved ->
  present saved
  /\ normalizeDate h (date event) = Return (date saved)
  /\ normalizeTime (time event) = Return (time saved)
  /\ slug saved = (if titleModified then generateSlug h (titleText event)
                   else slug event)
  /\ (titleModified = true -> isSlug (slug saved) = true)
  /\ title saved = title event /\ description saved = description event
  /\ overview saved = overview event /\ image saved = image event
  /\ venue saved = venue event /\ location saved = location event
  /\ mode saved = mode event /\ audience saved = audience event
  /\ organizer saved = organizer event
  /\ agenda saved = agenda event /\ tags saved = tags event.
Proof.
  unfold pre_save.
  pose proof (checkRequired_present event) as P.
  destruct (checkRequired event requiredStringFields) as [e|]; [discriminate|].
  assert (Pr : present event) by now apply P.
  destruct (normalizeDate h (date event)) as [d|e] eqn:D; [|discriminate].
  destruct (normalizeTime (time event)) as [t|e] eqn:T; [|discriminate].
  intros E; inversion E; subst saved; clear E.
  cbn [title slug description overview image venue location date time mode
       audience agenda organizer tags].
  split; [apply present_fields; apply present_fields in Pr; exact Pr|].
  repeat (split; [reflexivity|]).
  split; [|repeat split].
  intros ->. apply generateSlug_isSlug.
Qed.

(** X9 at a first save with the title modified. *)
Lemma pre_save_success_witness :
  present savedEvent
  /\ normalizeDate plainHost (date draftEvent) = Return (date savedEvent)
  /\ normalizeTime (time draftEvent) = Return (time savedEvent)
  /\ slug savedEvent = (if true then generateSlug plainHost (titleText draftEvent)
                        else slug draftEvent)
  /\ (true = true -> isSlug (slug savedEvent) = true)
  /\ title savedEvent = title draftEvent
  /\ description savedEvent = description draftEvent
  /\ overview savedEvent = overview draftEvent
  /\ image savedEvent = image draftEvent
  /\ venue savedEvent = venue draftEvent
  /\ location savedEvent = location draftEvent
  /\ mode savedEvent = mode draftEvent
  /\ audience savedEvent = audience draftEvent
  /\ organizer savedEvent = organizer draftEvent
  /\ agenda savedEvent = agenda draftEvent /\ tags savedEvent = tags draftEvent.
Proof.
  exact (@pre_save_success plainHost true draftEvent savedEvent eq_refl).
Defined.

(** X10. An event the pre-save hook has let through passes the hook again
    unchanged when its title is not modified; and also when the title
    counts as modified, if it did so the first time. *)
Theorem pre_save_stable h titleModified event saved :
  pre_save h titleModified event = Return saved ->
  pre_save h false saved = Return saved
  /\ (titleModified = true -> pre_save h true saved = Return saved).
Proof.
  unfold pre_save at 1.
  destruct (checkRequired event requiredStringFields) as [e|] eqn:C;
    [discriminate|].
  destruct (normalizeDate h (date event)) as [d|e] eqn:D; [|discriminate].
  destruct (normalizeTime (time event)) as [t|e] eqn:T; [|discriminate].
  intros E; inversion E; subst saved; clear E.
  apply normalizeDate_again in D.
  apply normalizeTime_again in T.
  assert (K : forall s,
             checkRequired
               {| title := title event; slug := s;
                  description := description event; overview := overview event;
                  image := image event; venue := venue event;
                  location := location event; date := d; time := t;
                  mode := mode event; audience := audience event;
                  agenda := agenda event; organizer := organizer event;
                  tags := tags event |} requiredStringFields = None).
  { intros s. revert C. cbn [checkRequired requiredStringFields
      title description overview image venue location mode audience organizer].
    exact (fun x => x). }
  split.
  - unfold pre_save. rewrite K.
    cbn [date time title slug description overview image venue location mode
         audience agenda organizer tags].
    rewrite D, T. reflexivity.
  - intros ->. unfold pre_save. rewrite K.
    cbn [date time title slug description overview image venue location mode
         audience agenda organizer tags].
    rewrite D, T. reflexivity.
Qed.

(** X10 at the event saved from that draft. *)
Lemma pre_save_stable_witness :
  pre_save plainHost false savedEvent = Return savedEvent
  /\ (true = true -> pre_save plainHost true savedEvent = Return savedEvent).
Proof.
  exact (@pre_save_stable plainHost true draftEvent savedEvent eq_refl).
Defined.

(** X11. The validator of [agenda] and of [tags] accepts exactly the
    non-empty arrays whose elements are all strings with a code unit that
    is not white space: the emptiness the required text fields are tested
    for. *)
Theorem listValidator_accepts v :
  listValidator v = true
  <-> exists items, v = Array items /\ items <> []
                    /\ Forall (fun item => ~ blank item) items.
Proof.
  destruct v as [|items]; cbn [listValidator].
  - split; [discriminate | intros (i & E & _); discriminate].
  - rewrite andb_true_iff, Nat.ltb_lt, forallb_forall.
    split.
    + intros [L F]. exists items. split; [reflexivity|]. split.
      * destruct items; [cbn in L; lia | discriminate].
      * apply Forall_forall. intros x Hx. specialize (F x Hx).
        destruct x as [|s]; [discriminate|].
        cbn [blank]. rewrite <- trim_blank. apply Nat.ltb_lt in F.
        intros Z. rewrite Z in F. cbn in F. lia.
    + intros (i & E & N & F). inversion E; subst i; clear E.
      rewrite Forall_forall in F. split.
      * destruct items; [congruence | cbn; lia].
      * intros x Hx. specialize (F x Hx). destruct x as [|s]; [now destruct F|].
        cbn [blank] in F. rewrite <- trim_blank in F. apply Nat.ltb_lt.
        destruct (trim s); [congruence | cbn; lia].
Qed.

End HookFacts.

(** ** The pre-save hook of a booking *)

Module BookingFacts.

Import EventModel BookingModel EmailSpec HookSpec EmailFacts.

(** X12. The pre-save hook of a booking succeeds exactly when the e-mail has
    the form of the pattern and, for a new booking or a changed [eventId],
    the lookup answers that the event exists; it fails with the error of a
    missing event exactly when the e-mail has the form, the booking is new
    or its [eventId] changed, and the lookup answers that there is no such
    event; it fails with what the lookup failed with exactly when the
    e-mail has the form, the booking is new or its [eventId] changed, and
    the lookup failed; and it fails with nothing else than the error of an
    invalid e-mail, the error of a missing event, or the failure of the
    lookup.  The event is not looked up when the e-mail is refused, nor
    when an existing booking is saved with its [eventId] unchanged. *)
Theorem booking_pre_save_outcome (ObjectId Reason : Type)
    (eventExists : ObjectId -> completion bool Reason)
    (isNew eventIdModified : bool) (booking : BookingDocument ObjectId) :
  (pre_save eventExists isNew eventIdModified booking = Return tt
   <-> EmailPattern (email booking)
       /\ (isNew || eventIdModified = true ->
           eventExists (eventId booking) = Return true))
  /\ (pre_save eventExists isNew eventIdModified booking
        = Throw (Raised MISSING_EVENT)
      <-> EmailPattern (email booking)
          /\ isNew || eventIdModified = true
          /\ eventExists (eventId booking) = Return false)
  /\ (forall reason,
        pre_save eventExists isNew eventIdModified booking
          = Throw (LookupFailed reason)
        <-> EmailPattern (email booking)
            /\ isNew || eventIdModified = true
            /\ eventExists (eventId booking) = Throw reason)
  /\ (forall err,
        pre_save eventExists isNew eventIdModified booking = Throw err ->
        err = Raised INVALID_EMAIL \/ err = Raised MISSING_EVENT
        \/ exists reason,
             err = LookupFailed reason
             /\ eventExists (eventId booking) = Throw reason).
Proof.
  unfold pre_save, MISSING_EVENT, INVALID_EMAIL.
  pose proof (validator_pattern (email booking)) as V. unfold validator in V.
  destruct (test EMAIL_REGEX (email booking)); cbn [negb].
  - assert (P : EmailPattern (email booking)) by now apply V.
    destruct (isNew || eventIdModified).
    + destruct (eventExists (eventId booking)) as [[|]|r]; cbn [negb].
      * split; [tauto|].
        split; [split; [discriminate | intros (_ & _ & X); discriminate]|].
        split; [|discriminate].
        intros reason. split; [discriminate | intros (_ & _ & X); discriminate].
      * split; [split; [discriminate
                       | intros [_ X]; specialize (X eq_refl); discriminate]|].
        split; [tauto|].
        split; [|intros err E; inversion E; auto].
        intros reason. split; [discriminate | intros (_ & _ & X); discriminate].
      * split; [split; [discriminate
                       | intros [_ X]; specialize (X eq_refl); discriminate]|].
        split; [split; [discriminate | intros (_ & _ & X); discriminate]|].
        split.
        -- intros reason. split.
           ++ intros E; inversion E; subst. auto.
           ++ intros (_ & _ & X). inversion X. reflexivity.
        -- intros err E; inversion E. right. right. eauto.
    + split; [split; [intros _; split; [exact P | discriminate] | reflexivity]|].
      split; [split; [discriminate | intros (_ & X & _); discriminate]|].
      split; [|discriminate].
      intros reason. split; [discriminate | intros (_ & X & _); discriminate].
  - assert (NP : ~ EmailPattern (email booking))
      by (intros X; apply V in X; discriminate).
    split; [split; [discriminate | intros [X _]; now destruct NP]|].
    split; [split; [discriminate | intros (X & _); now destruct NP]|].
    split; [|intros err E; inversion E; auto].
    intros reason. split; [discriminate | intros (X & _); now destruct NP].
Qed.

Lemma countAt_app (l1 l2 : jstring) :
  countAt (l1 ++ l2) = (countAt l1 + countAt l2)%nat.
Proof. apply count_occ_app. Qed.

Lemma count_none (l : jstring) :
  forallb nonSpaceNonAt l = true -> countAt l = 0%nat.
Proof.
  intros F. apply count_occ_not_In. intros I.
  rewrite forallb_forall in F. apply F in I.
  unfold nonSpaceNonAt in I. rewrite N.eqb_refl, andb_false_r in I. discriminate.
Qed.

Lemma nonSpace_of (l : jstring) :
  forallb nonSpaceNonAt l = true -> forallb nonSpace l = true.
Proof.
  rewrite !forallb_forall. intros F x I. apply F in I.
  unfold nonSpaceNonAt in I. now apply andb_true_iff in I.
Qed.

(** X13. An e-mail the validator accepts has exactly one [@], no white
    space, at least five code units, a non-empty part before the [@] and
    a dot after it. *)
Theorem accepted_email_shape v :
  validator v = true ->
  countAt v = 1%nat
  /\ forallb nonSpace v = true
  /\ (5 <= length v)%nat
  /\ exists name domain,
       v = name ++ AT :: domain /\ name <> [] /\ In DOT domain.
Proof.
  intros H. apply validator_pattern in H.
  destruct H as (a & b & c & E & Na & Nb & Nc & Fa & Fb & Fc). subst v.
  split; [|split; [|split]].
  - rewrite !countAt_app.
    rewrite (count_none _ Fa), (count_none _ Fb), (count_none _ Fc).
    reflexivity.
  - rewrite !forallb_app.
    rewrite (nonSpace_of _ Fa), (nonSpace_of _ Fb), (nonSpace_of _ Fc).
    reflexivity.
  - rewrite !length_app. cbn [length].
    destruct a; [congruence|]. destruct b; [congruence|]. destruct c; [congruence|].
    cbn [length]. lia.
  - exists a, (b ++ [DOT] ++ c). repeat split; auto.
    apply in_or_app. right. now left.
Qed.

(** X13 at a plain address. *)
Lemma accepted_email_shape_witness :
  countAt (lit "ada@example.org") = 1%nat
  /\ forallb nonSpace (lit "ada@example.org") = true
  /\ (5 <= length (lit "ada@example.org"))%nat
  /\ exists name domain,
       lit "ada@example.org" = name ++ AT :: domain /\ name <> []
       /\ In DOT domain.
Proof.
  exact (@accepted_email_shape (lit "ada@example.org") eq_refl).
Defined.

End BookingFacts.

(** ** The connection cache over any interleaving *)

Module FlightFacts.

Import Mongodb ConnectionSpec FlightSpec ConnectionFacts.

Section Interleavings.
Variables Mongoose Reason : Type.

Lemma threwCount_update (l : list (call Mongoose Reason)) i c0 c :
  nth_error l i = Some c0 -> isThrew c0 = false ->
  threwCount (update l i c) = (threwCount l + if isThrew c then 1 else 0)%nat.
Proof.
  unfold threwCount. revert i. induction l as [|b l IH]; intros i H N.
  - destruct i; discriminate.
  - destruct i as [|i]; cbn [update filter].
    + cbn in H. inversion H; subst b. rewrite N.
      destruct (isThrew c); cbn [length]; lia.
    + cbn in H. specialize (IH i H N).
      destruct (isThrew b); cbn [length]; rewrite IH; lia.
Qed.

Lemma settled_kept (ps : list (promiseState Mongoose Reason)) p q s x :
  nth_error ps p = Some Pending -> nth_error ps q = Some x -> x <> Pending ->
  nth_error (update ps p s) q = Some x.
Proof.
  intros Hp Hq N. rewrite nth_error_update.
  destruct (Nat.eqb_spec p q) as [->|_]; [congruence | exact Hq].
Qed.

Lemma nth_error_snoc (A : Type) (l : list A) q x a :
  nth_error l q = Some x -> nth_error (l ++ [a]) q = Some x.
Proof.
  intros H. rewrite nth_error_app1; [exact H|].
  apply nth_error_Some. congruence.
Qed.

Lemma exec_finished (w w' : world Mongoose Reason) e i c :
  nth_error (calls w) i = Some c -> finished c = true ->
  exec w e = Some w' -> nth_error (calls w') i = Some c.
Proof.
  intros Ci F E. destruct e as [j | p s | j]; cbn [exec] in E.
  - destruct (nth_error (calls w) j) as [[| | |]|] eqn:Cj; try discriminate.
    destruct (enter w) as [[c' g] ps]. inversion E; subst w'; cbn [calls].
    rewrite nth_error_update.
    destruct (Nat.eqb_spec j i) as [->|_]; [|exact Ci].
    rewrite Ci in Cj. inversion Cj; subst c. discriminate.
  - destruct (nth_error (promises w) p) as [[| |]|]; try discriminate.
    destruct s; inversion E; subst w'; exact Ci.
  - destruct (nth_error (calls w) j) as [[| p | |]|] eqn:Cj; try discriminate.
    destruct (resume w p) as [[c' g]|]; [|discriminate].
    inversion E; subst w'; cbn [calls].
    rewrite nth_error_update.
    destruct (Nat.eqb_spec j i) as [->|_]; [|exact Ci].
    rewrite Ci in Cj. inversion Cj; subst c. discriminate.
Qed.

Lemma run_finished es : forall (w w' : world Mongoose Reason) i c,
  nth_error (calls w) i = Some c -> finished c = true ->
  run w es = Some w' -> nth_error (calls w') i = Some c.
Proof.
  induction es as [|e es IH]; intros w w' i c Ci F R; cbn [run] in R.
  - now inversion R; subst w'.
  - destruct (exec w e) as [w1|] eqn:E; [|discriminate].
    eapply IH; [|exact F|exact R]. eapply exec_finished; eauto.
Qed.

Lemma fresh_sound uri n :
  falsy uri = false -> sound (@fresh Mongoose Reason uri n).
Proof.
  intros U. unfold sound, attempts, failures, fresh.
  cbn [MONGODB_URI cached promises calls conn promise length].
  assert (C : forall i c, nth_error (repeat (@NotCalled Mongoose Reason) n) i = Some c
                          -> c = NotCalled).
  { intros i c H. apply nth_error_In in H. now apply repeat_spec in H. }
  split; [exact U|]. split; [|split; [|split; [|split]]].
  - intros i h H. apply C in H. discriminate.
  - intros i e H. apply C in H. discriminate.
  - discriminate.
  - lia.
  - lia.
Qed.

Lemma sound_step (w w' : world Mongoose Reason) e :
  sound w -> exec w e = Some w' -> sound w'.
Proof.
  intros (U & Rt & Th & Cn & A1 & A0) E. unfold sound, attempts, failures in *.
  destruct e as [i | p s | i]; cbn [exec] in E.
  - (* Enter *)
    destruct (nth_error (calls w) i) as [[| | |]|] eqn:Ci; try discriminate.
    unfold enter in E. rewrite U in E.
    destruct (conn (cached w)) as [h0|] eqn:C0;
      [|destruct (promise (cached w)) as [q|] eqn:P0];
      inversion E; subst w'; clear E;
      cbn [MONGODB_URI cached promises calls conn promise];
      rewrite (@threwCount_update _ _ _ _ Ci eq_refl); cbn [isThrew];
      rewrite ?length_app; cbn [length].
    + (* a handle is cached *)
      split; [exact U|]. split.
      { intros j h. rewrite nth_error_update.
        destruct (Nat.eqb_spec i j) as [->|_]; [|apply Rt].
        rewrite Ci. intros X; inversion X; subst h. now apply Cn. }
      split.
      { intros j e. rewrite nth_error_update.
        destruct (Nat.eqb_spec i j) as [->|_]; [|apply Th].
        rewrite Ci. discriminate. }
      split; [rewrite C0; exact Cn|]. split; [lia|].
      intros Z. specialize (A0 Z). lia.
    + (* an attempt is cached *)
      split; [exact U|]. split.
      { intros j h. rewrite nth_error_update.
        destruct (Nat.eqb_spec i j) as [->|_]; [|apply Rt].
        rewrite Ci. discriminate. }
      split.
      { intros j e. rewrite nth_error_update.
        destruct (Nat.eqb_spec i j) as [->|_]; [|apply Th].
        rewrite Ci. discriminate. }
      split; [rewrite C0; discriminate|].
      split; [lia | rewrite P0; discriminate].
    + (* a new attempt *)
      specialize (A0 eq_refl).
      split; [exact U|]. split.
      { intros j h. rewrite nth_error_update.
        destruct (Nat.eqb_spec i j) as [->|_].
        - rewrite Ci. discriminate.
        - intros X. destruct (Rt _ _ X) as [p Hp]. exists p.
          now apply nth_error_snoc. }
      split.
      { intros j e. rewrite nth_error_update.
        destruct (Nat.eqb_spec i j) as [->|_].
        - rewrite Ci. discriminate.
        - intros X. destruct (Th _ _ X) as (p & r & Er & Hp). exists p, r.
          split; [exact Er|]. now apply nth_error_snoc. }
      split; [discriminate|]. split; [lia | discriminate].
  - (* Settle *)
    destruct (nth_error (promises w) p) as [[| |]|] eqn:Pp; try discriminate.
    assert (W : w' = {| MONGODB_URI := MONGODB_URI w; cached := cached w;
                        promises := update (promises w) p s;
                        calls := calls w |})
      by (destruct s; inversion E; reflexivity).
    subst w'. cbn [MONGODB_URI cached promises calls]. rewrite length_update.
    split; [exact U|]. split.
    { intros j h X. destruct (Rt _ _ X) as [q Hq]. exists q.
      eapply settled_kept; eauto. discriminate. }
    split.
    { intros j e X. destruct (Th _ _ X) as (q & r & Er & Hq). exists q, r.
      split; [exact Er|]. eapply settled_kept; eauto. discriminate. }
    split.
    { intros h X. destruct (Cn _ X) as [q Hq]. exists q.
      eapply settled_kept; eauto. discriminate. }
    split; [exact A1 | exact A0].
  - (* Resume *)
    destruct (nth_error (calls w) i) as [[| p | |]|] eqn:Ci; try discriminate.
    unfold resume in E.
    destruct (nth_error (promises w) p) as [[| h | r]|] eqn:Pp; try discriminate;
      inversion E; subst w'; clear E;
      cbn [MONGODB_URI cached promises calls conn promise];
      rewrite (@threwCount_update _ _ _ _ Ci eq_refl); cbn [isThrew].
    + split; [exact U|]. split.
      { intros j h'. rewrite nth_error_update.
        destruct (Nat.eqb_spec i j) as [->|_]; [|apply Rt].
        rewrite Ci. intros X; inversion X; subst h'. eauto. }
      split.
      { intros j e. rewrite nth_error_update.
        destruct (Nat.eqb_spec i j) as [->|_]; [|apply Th].
        rewrite Ci. discriminate. }
      split.
      { intros h' X. inversion X; subst h'. eauto. }
      split; [lia|]. intros Z. specialize (A0 Z). lia.
    + split; [exact U|]. split.
      { intros j h'. rewrite nth_error_update.
        destruct (Nat.eqb_spec i j) as [->|_]; [|apply Rt].
        rewrite Ci. discriminate. }
      split.
      { intros j e. rewrite nth_error_update.
        destruct (Nat.eqb_spec i j) as [->|_]; [|apply Th].
        rewrite Ci. intros X; inversion X; subst e. eauto. }
      split; [exact Cn|]. split; [lia|]. intros _. lia.
Qed.

Lemma run_sound es : forall (w w' : world Mongoose Reason),
  sound w -> run w es = Some w' -> sound w'.
Proof.
  induction es as [|e es IH]; intros w w' S R; cbn [run] in R.
  - now inversion R; subst w'.
  - destruct (exec w e) as [w1|] eqn:E; [|discriminate].
    eapply IH; [|exact R]. eapply sound_step; eauto.
Qed.

(** X14. In a process with MONGODB_URI set that has not connected, after
    any interleaving of calls, settlements and continuations: a caller
    that has returned has the handle some attempt was fulfilled with; a
    caller that has failed has the reason some attempt was rejected
    with; there are at most as many connection attempts as failed callers
    plus one; so while no caller has failed there is at most one attempt
    and all the callers that returned have the same handle. *)
Theorem connect_any_interleaving uri n es (w : world Mongoose Reason) :
  falsy uri = false ->
  run (fresh uri n) es = Some w ->
  (forall i handle,
     nth_error (calls w) i = Some (Returned handle) ->
     exists p, nth_error (promises w) p = Some (Fulfilled handle))
  /\ (forall i e,
        nth_error (calls w) i = Some (Threw e) ->
        exists p reason, e = ConnectError reason
                         /\ nth_error (promises w) p = Some (Rejected reason))
  /\ (attempts w <= failures w + 1)%nat
  /\ (failures w = 0%nat ->
      forall i j h1 h2,
        nth_error (calls w) i = Some (Returned h1) ->
        nth_error (calls w) j = Some (Returned h2) -> h1 = h2).
Proof.
  intros U R.
  destruct (@run_sound es _ _ (@fresh_sound uri n U) R) as (_ & Rt & Th & _ & A1 & _).
  split; [exact Rt|]. split; [exact Th|]. split; [exact A1|].
  intros Z i j h1 h2 H1 H2. rewrite Z in A1. unfold attempts in A1.
  destruct (Rt _ _ H1) as [p Hp]. destruct (Rt _ _ H2) as [q Hq].
  assert (p < length (promises w))%nat by (apply nth_error_Some; congruence).
  assert (q < length (promises w))%nat by (apply nth_error_Some; congruence).
  assert (p = q) by lia. congruence.
Qed.

Lemma unconfigured_step (w w' : world Mongoose Reason) e :
  unconfigured w -> exec w e = Some w' ->
  unconfigured w'
  /\ forall i, e = Enter i ->
       nth_error (calls w') i = Some (Threw (Error CONFIG_MESSAGE)).
Proof.
  intros (U & Ps & Ch & C) E. destruct e as [i | p s | i]; cbn [exec] in E.
  - destruct (nth_error (calls w) i) as [[| | |]|] eqn:Ci; try discriminate.
    unfold enter in E. rewrite U in E. inversion E; subst w'; clear E.
    unfold unconfigured. cbn [MONGODB_URI cached promises calls].
    split.
    + repeat split; auto. intros j c. rewrite nth_error_update.
      destruct (Nat.eqb_spec i j) as [->|_]; [|apply C].
      rewrite Ci. intros X; inversion X. now right.
    + intros j X. inversion X; subst j.
      now rewrite nth_error_update, Nat.eqb_refl, Ci.
  - rewrite Ps in E. destruct p; discriminate.
  - destruct (nth_error (calls w) i) as [[| p | |]|] eqn:Ci; try discriminate.
    destruct (C _ _ Ci); discriminate.
Qed.

Lemma run_unconfigured es : forall (w w' : world Mongoose Reason),
  unconfigured w -> run w es = Some w' ->
  unconfigured w'
  /\ forall i, In (Enter i) es ->
       nth_error (calls w') i = Some (Threw (Error CONFIG_MESSAGE)).
Proof.
  induction es as [|e es IH]; intros w w' S R; cbn [run] in R.
  - inversion R; subst w'. split; [exact S|]. intros i [].
  - destruct (exec w e) as [w1|] eqn:E; [|discriminate].
    destruct (@unconfigured_step _ _ _ S E) as [S1 T1].
    destruct (IH _ _ S1 R) as [S' T']. split; [exact S'|].
    intros i [X|X]; [|now apply T'].
    eapply run_finished; [apply T1; exact X | reflexivity | exact R].
Qed.

(** X15. In a process without MONGODB_URI (or with an empty one) that has
    not connected, whatever the interleaving: no connection is ever
    attempted, nothing is cached, and every caller that has called has
    failed with the error that asks to define MONGODB_URI. *)
Theorem unconfigured_never_connects uri n es (w : world Mongoose Reason) :
  falsy uri = true ->
  run (fresh uri n) es = Some w ->
  promises w = []
  /\ cached w = {| conn := None; promise := None |}
  /\ (forall i, In (Enter i) es ->
        nth_error (calls w) i = Some (Threw (Error CONFIG_MESSAGE)))
  /\ (forall i c, nth_error (calls w) i = Some c ->
        c = NotCalled \/ c = Threw (Error CONFIG_MESSAGE)).
Proof.
  intros U R.
  assert (S : unconfigured (@fresh Mongoose Reason uri n)).
  { unfold unconfigured, fresh. cbn [MONGODB_URI cached promises calls].
    repeat split; auto. intros i c H. apply nth_error_In in H.
    apply repeat_spec in H. now left. }
  destruct (@run_unconfigured es _ _ S R) as [(_ & Ps & Ch & C) T]. auto.
Qed.

Lemma connected_step (w w' : world Mongoose Reason) e :
  falsy (MONGODB_URI w) = false ->
  (exists h, conn (cached w) = Some h) ->
  exec w e = Some w' ->
  falsy (MONGODB_URI w') = false
  /\ (exists h, conn (cached w') = Some h)
  /\ length (promises w') = length (promises w)
  /\ (forall i, e = Enter i -> exists h, nth_error (calls w') i = Some (Returned h))
  /\ (forall i, nth_error (calls w) i = Some NotCalled -> e <> Enter i ->
        nth_error (calls w') i = Some NotCalled).
Proof.
  intros U [h C] E. destruct e as [i | p s | i]; cbn [exec] in E.
  - destruct (nth_error (calls w) i) as [[| | |]|] eqn:Ci; try discriminate.
    unfold enter in E. rewrite U, C in E. inversion E; subst w'; clear E.
    cbn [MONGODB_URI cached promises calls].
    split; [exact U|]. split; [eauto|]. split; [reflexivity|]. split.
    + intros j X. inversion X; subst j. exists h.
      now rewrite nth_error_update, Nat.eqb_refl, Ci.
    + intros j Cj N. rewrite nth_error_update.
      destruct (Nat.eqb_spec i j) as [->|_]; [now destruct N | exact Cj].
  - destruct (nth_error (promises w) p) as [[| |]|] eqn:Pp; try discriminate.
    assert (W : w' = {| MONGODB_URI := MONGODB_URI w; cached := cached w;
                        promises := update (promises w) p s;
                        calls := calls w |})
      by (destruct s; inversion E; reflexivity).
    subst w'. cbn [MONGODB_URI cached promises calls]. rewrite length_update.
    split; [exact U|]. split; [eauto|]. split; [reflexivity|]. split.
    + discriminate.
    + auto.
  - destruct (nth_error (calls w) i) as [[| p | |]|] eqn:Ci; try discriminate.
    unfold resume in E.
    destruct (nth_error (promises w) p) as [[| h' | r]|] eqn:Pp; try discriminate;
      inversion E; subst w'; clear E;
      cbn [MONGODB_URI cached promises calls conn promise];
      (split; [exact U|]); (split; [eauto|]); (split; [reflexivity|]);
      (split; [discriminate|]);
      intros j Cj _; rewrite nth_error_update;
      (destruct (Nat.eqb_spec i j) as [->|_]; [congruence | exact Cj]).
Qed.

(** X16. Once a handle is cached, with MONGODB_URI set, whatever happens
    next: a handle stays cached, no further connection is attempted, and
    every caller that calls from then on returns a handle. *)
Theorem connected_stays_connected es : forall (w w' : world Mongoose Reason),
  falsy (MONGODB_URI w) = false ->
  (exists handle, conn (cached w) = Some handle) ->
  run w es = Some w' ->
  (exists handle, conn (cached w') = Some handle)
  /\ attempts w' = attempts w
  /\ (forall i, nth_error (calls w) i = Some NotCalled -> In (Enter i) es ->
        exists handle, nth_error (calls w') i = Some (Returned handle)).
Proof.
  unfold attempts.
  induction es as [|e es IH]; intros w w' U C R; cbn [run] in R.
  - inversion R; subst w'. split; [exact C|]. split; [reflexivity|].
    intros i _ [].
  - destruct (exec w e) as [w1|] eqn:E; [|discriminate].
    destruct (@connected_step _ _ _ U C E) as (U1 & C1 & L1 & En & Nc).
    destruct (IH _ _ U1 C1 R) as (C' & L' & T').
    split; [exact C'|]. split; [lia|].
    intros i Ci I.
    assert (D : e = Enter i \/ e <> Enter i).
    { destruct e as [j| |]; try (right; discriminate).
      destruct (Nat.eq_dec j i) as [->|N]; [now left | right; congruence]. }
    destruct D as [D|D].
    + destruct (En _ D) as [h Hh]. exists h.
      eapply run_finished; [exact Hh | reflexivity | exact R].
    + destruct I as [I|I]; [now destruct D|].
      apply T'; [|exact I]. now apply Nc.
Qed.

(** X17. A caller that waited for an attempt that has failed clears the
    cached promise even when that promise is by now a newer attempt, still
    pending; the next caller then starts another attempt, so that two
    attempts are pending at once. *)
Theorem stale_failure_second_attempt (w : world Mongoose Reason) i j p q reason :
  falsy (MONGODB_URI w) = false ->
  conn (cached w) = None ->
  promise (cached w) = Some q ->
  nth_error (promises w) q = Some Pending ->
  nth_error (calls w) i = Some (Awaiting p) ->
  nth_error (promises w) p = Some (Rejected reason) ->
  nth_error (calls w) j = Some NotCalled ->
  exists w',
    run w [Resume i; Enter j] = Some w'
    /\ nth_error (calls w') i = Some (Threw (ConnectError reason))
    /\ nth_error (calls w') j = Some (Awaiting (attempts w))
    /\ promises w' = promises w ++ [Pending]
    /\ nth_error (promises w') q = Some Pending
    /\ nth_error (promises w') (attempts w) = Some Pending
    /\ q <> attempts w
    /\ promise (cached w') = Some (attempts w).
Proof.
  intros U C P Pq Ci Pp Cj. unfold attempts.
  assert (N : i <> j) by congruence.
  cbn [run exec]. rewrite Ci. unfold resume. rewrite Pp.
  cbn [calls cached promises promise conn MONGODB_URI].
  rewrite nth_error_update.
  destruct (Nat.eqb_spec i j) as [X|_]; [now destruct N|]. rewrite Cj.
  unfold enter. cbn [calls cached promises promise conn MONGODB_URI].
  rewrite U, C. eexists. split; [reflexivity|].
  cbn [calls cached promises promise conn MONGODB_URI].
  assert (Q : (q < length (promises w))%nat) by (apply nth_error_Some; congruence).
  split.
  { rewrite nth_error_update.
    destruct (Nat.eqb_spec j i) as [X|_]; [now destruct N|].
    now rewrite nth_error_update, Nat.eqb_refl, Ci. }
  split.
  { rewrite nth_error_update, Nat.eqb_refl, nth_error_update.
    destruct (Nat.eqb_spec i j) as [X|_]; [now destruct N|]. now rewrite Cj. }
  split; [reflexivity|]. split; [now apply nth_error_snoc|].
  split.
  { rewrite nth_error_app2, Nat.sub_diag by lia. reflexivity. }
  split; [lia | reflexivity].
Qed.

End Interleavings.

(** X14 after a failed attempt and the start of a second one. *)
Lemma connect_any_interleaving_witness :
  (forall i handle,
     nth_error (calls staleWorld) i = Some (Returned handle) ->
     exists p, nth_error (promises staleWorld) p = Some (Fulfilled handle))
  /\ (forall i e,
        nth_error (calls staleWorld) i = Some (Threw e) ->
        exists p reason, e = ConnectError reason
                         /\ nth_error (promises staleWorld) p = Some (Rejected reason))
  /\ (attempts staleWorld <= failures staleWorld + 1)%nat
  /\ (failures staleWorld = 0%nat ->
      forall i j h1 h2,
        nth_error (calls staleWorld) i = Some (Returned h1) ->
        nth_error (calls staleWorld) j = Some (Returned h2) -> h1 = h2).
Proof.
  exact (@connect_any_interleaving nat unit sampleUri 4 staleEvents staleWorld
           eq_refl eq_refl).
Defined.

(** X15 at two callers. *)
Lemma unconfigured_never_connects_witness :
  promises refusedWorld = []
  /\ cached refusedWorld = {| conn := None; promise := None |}
  /\ (forall i, In (Enter i) [@Enter nat unit 1; Enter 0] ->
        nth_error (calls refusedWorld) i = Some (Threw (Error CONFIG_MESSAGE)))
  /\ (forall i c, nth_error (calls refusedWorld) i = Some c ->
        c = NotCalled \/ c = Threw (Error CONFIG_MESSAGE)).
Proof.
  exact (@unconfigured_never_connects nat unit None 2 [Enter 1; Enter 0]
           refusedWorld eq_refl eq_refl).
Defined.

(** X16 at a late caller and a caller that was waiting. *)
Lemma connected_stays_connected_witness :
  (exists handle, conn (cached servedWorld) = Some handle)
  /\ attempts servedWorld = attempts servingWorld
  /\ (forall i, nth_error (calls servingWorld) i = Some NotCalled ->
        In (Enter i) [@Enter nat unit 1; Resume 2] ->
        exists handle, nth_error (calls servedWorld) i = Some (Returned handle)).
Proof.
  exact (@connected_stays_connected nat unit [Enter 1; Resume 2] servingWorld
           servedWorld eq_refl (ex_intro _ 7%nat eq_refl) eq_refl).
Defined.

(** X17 in a process that has reached such a state from its start. *)
Lemma stale_failure_second_attempt_witness :
  run (fresh sampleUri 4) staleEvents = Some staleWorld
  /\ exists w',
       run staleWorld [Resume 1; Enter 3] = Some w'
       /\ nth_error (calls w') 1 = Some (Threw (ConnectError tt))
       /\ nth_error (calls w') 3 = Some (Awaiting (attempts staleWorld))
       /\ promises w' = promises staleWorld ++ [Pending]
       /\ nth_error (promises w') 1 = Some Pending
       /\ nth_error (promises w') (attempts staleWorld) = Some Pending
       /\ 1%nat <> attempts staleWorld
       /\ promise (cached w') = Some (attempts staleWorld).
Proof.
  split; [reflexivity|].
  exact (@stale_failure_second_attempt nat unit staleWorld 1 3 0 1 tt
           eq_refl eq_refl eq_refl eq_refl eq_refl eq_refl eq_refl).
Defined.

End FlightFacts.
